(** * Order processing front end: the client-side order cache

    A shallow embedding of [static/js/app_fresh.js] (class
    [OrderProcessingApp]) and the properties of its order cache, selection
    set, pagination, command handlers and reconnection logic.

    Conventions of the embedding:
    - a JavaScript [Map] is an association list in insertion order
      ([Map.prototype.set] keeps the position of an existing key and appends
      a new one), a JavaScript [Set] is a duplicate-free list in insertion
      order;
    - array indices, page numbers, sizes and time values are [Z]: they stay
      far below 2^53, where JavaScript numbers are exact; the capacity is
      what [parseInt] makes of a text the operator types, and [parseInt]
      rounds as JavaScript does;
    - the DOM is not modelled: a handler returns the new application state
      and the list of effects it performs on its collaborators (socket,
      status line, confirmation dialog, timers). *)

From Stdlib Require Import ZArith Lia Ascii String.
From stdpp Require Import base tactics option list strings pretty sorting.

Local Open Scope string_scope.
Local Open Scope list_scope.
Local Open Scope Z_scope.

(** ** JavaScript primitives used by the program *)

Module JS.

Section Arrays.
Context {A : Type}.

(** Relative index of [Array.prototype.slice]: a negative index counts
    from the end, and every index is clamped to [0, len]. *)
Definition relative_index (len k : Z) : Z :=
  if k <? 0 then Z.max (len + k) 0 else Z.min k len.

(** [arr.slice(start, end)]. *)
Definition slice (arr : list A) (start end_ : Z) : list A :=
  let len := Z.of_nat (length arr) in
  let k := relative_index len start in
  let final := relative_index len end_ in
  take (Z.to_nat (final - k)) (drop (Z.to_nat k) arr).

(** [arr.slice(start)]: the end defaults to the length. *)
Definition slice_from (arr : list A) (start : Z) : list A :=
  slice arr start (Z.of_nat (length arr)).

(** [Array.prototype.sort(cmp)] is a stable sort.  For a consistent
    comparator its result is determined: [x] comes before [y] when
    [cmp x y < 0], and in input order when [cmp x y = 0].  Insertion of
    each element in front of the sorted rest computes that result. *)
Fixpoint sort_insert (cmp : A → A → Z) (x : A) (l : list A) : list A :=
  match l with
  | [] => [x]
  | y :: l' => if cmp x y <=? 0 then x :: y :: l' else y :: sort_insert cmp x l'
  end.

Fixpoint sort (cmp : A → A → Z) (l : list A) : list A :=
  match l with
  | [] => []
  | x :: l' => sort_insert cmp x (sort cmp l')
  end.
End Arrays.

(** [Map] with string keys, in insertion order. *)
Section Maps.
Context {V : Type}.

Fixpoint map_get (k : string) (m : list (string * V)) : option V :=
  match m with
  | [] => None
  | (k', v) :: m' => if decide (k' = k) then Some v else map_get k m'
  end.

Fixpoint map_set (k : string) (v : V) (m : list (string * V)) : list (string * V) :=
  match m with
  | [] => [(k, v)]
  | (k', v') :: m' =>
      if decide (k' = k) then (k, v) :: m' else (k', v') :: map_set k v m'
  end.

Definition map_delete (k : string) (m : list (string * V)) : list (string * V) :=
  filter (λ kv, kv.1 ≠ k) m.

Definition map_keys (m : list (string * V)) : list string := fst <$> m.
Definition map_values (m : list (string * V)) : list V := snd <$> m.
Definition map_size (m : list (string * V)) : Z := Z.of_nat (length m).
End Maps.

(** [Set] of strings, in insertion order. *)
Definition set_has (x : string) (s : list string) : bool := bool_decide (x ∈ s).
Definition set_add (x : string) (s : list string) : list string :=
  if set_has x s then s else s ++ [x].
Definition set_delete (x : string) (s : list string) : list string :=
  filter (λ y, y ≠ x) s.
Definition set_size (s : list string) : Z := Z.of_nat (length s).

End JS.

(** ** Data model *)

(** An order as it arrives on the wire.  [timestamp] is the time value
    (milliseconds since the epoch) of [new Date(order.timestamp)]; the wire
    format carries valid ISO-8601 instants, so the value is a number. *)
Record Order := mkOrder {
  order_id : string;
  customer_name : string;
  status : string;
  priority : string;
  details : string;
  timestamp : Z;
  processed_at : option Z
}.

(** The fields of [OrderProcessingApp] set up by its constructor. *)
Record App := mkApp {
  orders : list (string * Order);
  ordersArray : list Order;
  selectedOrders : list string;
  isConnected : bool;
  currentPage : Z;
  pageSize : Z;
  maxOrders : Z
}.

Definition constructor : App :=
  {| orders := []; ordersArray := []; selectedOrders := [];
     isConnected := false; currentPage := 1; pageSize := 25; maxOrders := 500 |}.

Definition with_orders (m : list (string * Order)) (st : App) : App :=
  mkApp m (ordersArray st) (selectedOrders st) (isConnected st)
        (currentPage st) (pageSize st) (maxOrders st).
Definition with_ordersArray (a : list Order) (st : App) : App :=
  mkApp (orders st) a (selectedOrders st) (isConnected st)
        (currentPage st) (pageSize st) (maxOrders st).
Definition with_selectedOrders (s : list string) (st : App) : App :=
  mkApp (orders st) (ordersArray st) s (isConnected st)
        (currentPage st) (pageSize st) (maxOrders st).
Definition with_isConnected (b : bool) (st : App) : App :=
  mkApp (orders st) (ordersArray st) (selectedOrders st) b
        (currentPage st) (pageSize st) (maxOrders st).
Definition with_currentPage (p : Z) (st : App) : App :=
  mkApp (orders st) (ordersArray st) (selectedOrders st) (isConnected st)
        p (pageSize st) (maxOrders st).
Definition with_pageSize (n : Z) (st : App) : App :=
  mkApp (orders st) (ordersArray st) (selectedOrders st) (isConnected st)
        (currentPage st) n (maxOrders st).
Definition with_maxOrders (n : Z) (st : App) : App :=
  mkApp (orders st) (ordersArray st) (selectedOrders st) (isConnected st)
        (currentPage st) (pageSize st) n.

(** ** The order cache *)

(** The comparator [(a, b) => new Date(b.timestamp) - new Date(a.timestamp)]. *)
Definition newest_first (a b : Order) : Z := timestamp b - timestamp a.

(** [Array.from(this.orders.values()).sort(...)]. *)
Definition sorted_values (m : list (string * Order)) : list Order :=
  JS.sort newest_first (JS.map_values m).

(** The body of the [forEach] in [enforceMaxOrdersLimit]. *)
Definition evict (st : App) (order : Order) : App :=
  with_selectedOrders (JS.set_delete (order_id order) (selectedOrders st))
    (with_orders (JS.map_delete (order_id order) (orders st)) st).

Definition enforceMaxOrdersLimit (st : App) : App :=
  if maxOrders st <? Z.of_nat (length (ordersArray st)) then
    let ordersToRemove := Z.of_nat (length (ordersArray st)) - maxOrders st in
    let oldestOrders := JS.slice_from (ordersArray st) (- ordersToRemove) in
    let st := foldl evict st oldestOrders in
    with_ordersArray (sorted_values (orders st)) st
  else st.

(** [addOrderToTable]; the rendering calls that follow read the state. *)
Definition addOrderToTable (order : Order) (st : App) : App :=
  let st := with_orders (JS.map_set (order_id order) order (orders st)) st in
  let st := with_ordersArray (sorted_values (orders st)) st in
  enforceMaxOrdersLimit st.

Definition updateOrderInTable (order : Order) (st : App) : App :=
  let st := with_orders (JS.map_set (order_id order) order (orders st)) st in
  let st := with_ordersArray (sorted_values (orders st)) st in
  enforceMaxOrdersLimit st.

(** ** Capacity input *)

(** The numbers [parseInt] can return: [NaN], an integer that is a double,
    or an infinity. *)
Inductive Number := NaN | Int (z : Z) | Infinity (negative : bool).

(** The double nearest to the natural number [n], ties to even.  A double
    has a significand of 53 bits: the bits of [n] below them are rounded
    away. *)
Definition round_to_double (n : Z) : Z :=
  let low := Z.log2 n - 52 in
  if low <=? 0 then n
  else
    let significand := Z.shiftr n low in
    let rest := Z.land n (Z.ones low) in
    let half := Z.shiftl 1 (low - 1) in
    let significand :=
      if (half <? rest) || ((rest =? half) && Z.odd significand)
      then significand + 1 else significand in
    Z.shiftl significand low.

(** The number value of [sign * n] for a natural number [n]: the nearest
    double, and an infinity when that is 2^1024 or more. *)
Definition to_number (sign n : Z) : Number :=
  let rounded := round_to_double n in
  if 1024 <=? Z.log2 rounded then Infinity (sign <? 0)
  else Int (sign * rounded).

(** White space skipped by [parseInt].  A text is a sequence of code units
    below 256, so of the white space code points only these occur. *)
Definition is_white_space (c : ascii) : bool :=
  let n := Z.of_nat (nat_of_ascii c) in
  (9 <=? n) && (n <=? 13) || (n =? 32) || (n =? 160).

Definition digit_value (c : ascii) : option Z :=
  let n := Z.of_nat (nat_of_ascii c) in
  if (48 <=? n) && (n <=? 57) then Some (n - 48)
  else if (97 <=? n) && (n <=? 122) then Some (n - 87)
  else if (65 <=? n) && (n <=? 90) then Some (n - 55)
  else None.

Fixpoint trim_start (s : string) : string :=
  match s with
  | String c s' => if is_white_space c then trim_start s' else s
  | EmptyString => s
  end.

(** The longest prefix of digits of the radix, as a number; [acc] is [None]
    until a digit has been read. *)
Fixpoint parse_digits (radix : Z) (s : string) (acc : option Z) : option Z :=
  match s with
  | String c s' =>
      match digit_value c with
      | Some d =>
          if d <? radix then parse_digits radix s' (Some (default 0 acc * radix + d))
          else acc
      | None => acc
      end
  | EmptyString => acc
  end.

(** [parseInt(text)] with no radix argument.  The value of the digits is
    rounded to a double.  (For a decimal numeral of more than 20 significant
    digits the language lets an implementation round less precisely; the
    model rounds the exact value.) *)
Definition parseInt (text : string) : Number :=
  let s := trim_start text in
  let '(sign, s) :=
    match s with
    | String "-"%char s' => (-1, s')
    | String "+"%char s' => (1, s')
    | _ => (1, s)
    end in
  let '(radix, s) :=
    match s with
    | String "0"%char (String "x"%char s') => (16, s')
    | String "0"%char (String "X"%char s') => (16, s')
    | _ => (10, s)
    end in
  match parse_digits radix s None with
  | Some n => to_number sign n
  | None => NaN
  end.

(** [n || d] for a number [n]: [NaN] and zero are falsy, an infinity is
    not.  The fields of the state are integers; an infinite capacity is
    held as 2^1024 with its sign, the magnitude no double reaches.  The
    capacity is read by [enforceMaxOrdersLimit] only, in a comparison with a
    length and in a [slice] of that many trailing orders, which come out
    the same for this magnitude as for the infinity. *)
Definition or_else (n : Number) (d : Z) : Z :=
  match n with
  | Int z => if z =? 0 then d else z
  | NaN => d
  | Infinity negative => if negative then - 2 ^ 1024 else 2 ^ 1024
  end.

(** [updateMaxOrdersLimit], given the text of the [maxOrders] input (the
    element exists: [setupEventListeners] attached a listener to it). *)
Definition updateMaxOrdersLimit (value : string) (st : App) : App :=
  let st := with_maxOrders (or_else (parseInt value) 500) st in
  enforceMaxOrdersLimit st.

(** ** Pagination *)

(** [Math.ceil(a / b)] for [0 <= a] and [0 < b]. *)
Definition ceil_div (a b : Z) : Z := - ((- a) / b).

Definition getTotalPages (st : App) : Z :=
  ceil_div (Z.of_nat (length (ordersArray st))) (pageSize st).

Definition goToPage (page : Z) (st : App) : App :=
  let totalPages := getTotalPages st in
  if (page <? 1) || (totalPages <? page) then st
  else with_currentPage page st.

(** The rows [renderCurrentPage] puts in the table body. *)
Definition renderCurrentPage (st : App) : list Order :=
  let start := (currentPage st - 1) * pageSize st in
  let end_ := start + pageSize st in
  JS.slice (ordersArray st) start end_.

(** The [change] listener of the page size selector; [n] is [parseInt] of
    the chosen option, a positive integer. *)
Definition onPageSizeChange (n : Z) (st : App) : App :=
  with_currentPage 1 (with_pageSize n st).

(** ** Selection *)

Definition toggleOrderSelection (orderId : string) (st : App) : App :=
  if JS.set_has orderId (selectedOrders st)
  then with_selectedOrders (JS.set_delete orderId (selectedOrders st)) st
  else with_selectedOrders (JS.set_add orderId (selectedOrders st)) st.

(** ** Commands and effects *)

(** The outbound commands of the order handlers. *)
Inductive Command :=
  | process_order (orderId : string)
  | close_order (orderId : string).

(** The closures the program hands to the dialog and to [setTimeout]. *)
Inductive Callback :=
  | PerformCloseOrder (orderId : string)
  | PerformCloseSelectedOrders (selectedProcessingOrders : list string)
  | Reconnect.

Inductive Effect :=
  | Send (message : Command)
  | ShowStatus (message type : string)
  | ShowConfirmationModal (message : string) (onConfirm : Callback)
  | SetTimeout (callback : Callback) (delay : Z)
  | NewWebSocket
  | UpdateConnectionStatus (status statusClass : string).

Definition dquote : string := String (ascii_of_nat 34) EmptyString.
Definition newline : string := String (ascii_of_nat 10) EmptyString.

(** A number inside a template literal. *)
Definition show (n : Z) : string := pretty n.

Definition not_connected : list Effect :=
  [ShowStatus "Not connected to server" "error"].

Definition processOrder (orderId : string) (st : App) : list Effect :=
  if negb (isConnected st) then not_connected
  else [Send (process_order orderId)].

Definition closeOrder (orderId : string) (st : App) : list Effect :=
  if negb (isConnected st) then not_connected
  else
    match JS.map_get orderId (orders st) with
    | None => [ShowStatus "Order not found" "error"]
    | Some order =>
        if bool_decide (status order ≠ "Processing")
        then [ShowStatus "Only processing orders can be closed" "error"]
        else
          let confirmMessage :=
            "You are about to close order " +:+ orderId +:+ " for customer "
            +:+ dquote +:+ customer_name order +:+ dquote +:+ "." +:+ newline
            +:+ newline +:+ "Are you sure you want to proceed?" in
          [ShowConfirmationModal confirmMessage (PerformCloseOrder orderId)]
    end.

Definition performCloseOrder (orderId : string) (st : App) : list Effect :=
  if negb (isConnected st) then not_connected
  else [Send (close_order orderId); ShowStatus ("Closing order " +:+ orderId) "success"].

Definition processSelectedOrders (st : App) : list Effect :=
  if negb (isConnected st) then not_connected
  else if JS.set_size (selectedOrders st) =? 0
  then [ShowStatus "No orders selected" "error"]
  else
    (selectedOrders st ≫= λ orderId, processOrder orderId st)
    ++ [ShowStatus "Processing selected orders" "success"].

(** The filter [order && order.status === 'Processing'] over the selection. *)
Definition is_processing (st : App) (orderId : string) : bool :=
  match JS.map_get orderId (orders st) with
  | Some order => bool_decide (status order = "Processing")
  | None => false
  end.

Definition closeSelectedOrders (st : App) : list Effect :=
  if negb (isConnected st) then not_connected
  else if JS.set_size (selectedOrders st) =? 0
  then [ShowStatus "No orders selected" "error"]
  else
    let selectedProcessingOrders := List.filter (is_processing st) (selectedOrders st) in
    let count := Z.of_nat (length selectedProcessingOrders) in
    if count =? 0
    then [ShowStatus "No processing orders selected to close" "error"]
    else
      let skippedCount := JS.set_size (selectedOrders st) - count in
      let confirmMessage :=
        "You are about to close " +:+ show count +:+ " processing order"
        +:+ (if 1 <? count then "s" else EmptyString) +:+ "." in
      let confirmMessage :=
        if 0 <? skippedCount
        then confirmMessage +:+ newline +:+ newline +:+ show skippedCount
             +:+ " pending order" +:+ (if 1 <? skippedCount then "s" else EmptyString)
             +:+ " will be skipped (not affected)."
        else confirmMessage in
      let confirmMessage :=
        confirmMessage +:+ newline +:+ newline +:+ "Are you sure you want to proceed?" in
      [ShowConfirmationModal confirmMessage
         (PerformCloseSelectedOrders selectedProcessingOrders)].

Definition performCloseSelectedOrders
    (selectedProcessingOrders : list string) (st : App) : list Effect :=
  let count := Z.of_nat (length selectedProcessingOrders) in
  let skippedCount := JS.set_size (selectedOrders st) - count in
  let message := "Closing " +:+ show count +:+ " processing orders" in
  let message :=
    if 0 <? skippedCount
    then message +:+ " (" +:+ show skippedCount +:+ " pending orders skipped)"
    else message in
  (selectedProcessingOrders ≫= λ orderId, performCloseOrder orderId st)
  ++ [ShowStatus message "success"].

Definition deselectAllOrders (st : App) : App * list Effect :=
  if JS.set_size (selectedOrders st) =? 0
  then (st, [ShowStatus "No orders are currently selected" "info"])
  else
    let deselectedCount := JS.set_size (selectedOrders st) in
    (with_selectedOrders [] st,
     [ShowStatus ("Deselected " +:+ show deselectedCount +:+ " orders") "success"]).

(** ** Connection and inbound messages *)

(** A decoded frame, by its [type] field. *)
Inductive Message :=
  | MsgOrderItem (data : Order)
  | MsgStatus (message : string)
  | MsgError (message : string)
  | MsgOrderUpdated (data : Order)
  | MsgUnknown (type : string).

Definition handleMessage (message : Message) (st : App) : App * list Effect :=
  match message with
  | MsgOrderItem data => (addOrderToTable data st, [])
  | MsgStatus text => (st, [ShowStatus text "success"])
  | MsgError text => (st, [ShowStatus text "error"])
  | MsgOrderUpdated data => (updateOrderInTable data st, [])
  | MsgUnknown _ => (st, [])
  end.

Definition connectWebSocket (st : App) : App * list Effect :=
  (st, [NewWebSocket]).

Definition ws_onopen (st : App) : App * list Effect :=
  (with_isConnected true st, [UpdateConnectionStatus "Connected" "connected"]).

Definition ws_onclose (st : App) : App * list Effect :=
  (with_isConnected false st,
   [UpdateConnectionStatus "Disconnected" "disconnected"; SetTimeout Reconnect 3000]).

Definition ws_onerror (st : App) : App * list Effect :=
  (st, [UpdateConnectionStatus "Error" "error"]).

(** Running a closure handed out earlier. *)
Definition call (callback : Callback) (st : App) : App * list Effect :=
  match callback with
  | PerformCloseOrder orderId => (st, performCloseOrder orderId st)
  | PerformCloseSelectedOrders ids => (st, performCloseSelectedOrders ids st)
  | Reconnect => if negb (isConnected st) then connectWebSocket st else (st, [])
  end.

(** ** Event dispatch *)

(** What the browser delivers to the listeners of [setupEventListeners],
    [connectWebSocket], [createOrderRow] and [showConfirmationModal]. *)
Inductive Event :=
  | WsOpen
  | WsMessage (message : Message)
  | WsClose
  | WsError
  | ClickProcess (orderId : string)
  | ClickClose (orderId : string)
  | ClickProcessSelected
  | ClickCloseSelected
  | ClickDeselectAll
  | ClickRow (orderId : string)
  | ChangePageSize (n : Z)
  | ClickFirstPage
  | ClickPrevPage
  | ClickNextPage
  | ClickLastPage
  | ChangeMaxOrders (value : string)
  | ModalConfirm
  | ModalCancel.

(** [modal] is the [onConfirm] closure of the dialog on display, if any. *)
Definition handle (ev : Event) (modal : option Callback) (st : App) : App * list Effect :=
  match ev with
  | WsOpen => ws_onopen st
  | WsMessage message => handleMessage message st
  | WsClose => ws_onclose st
  | WsError => ws_onerror st
  | ClickProcess orderId => (st, processOrder orderId st)
  | ClickClose orderId => (st, closeOrder orderId st)
  | ClickProcessSelected => (st, processSelectedOrders st)
  | ClickCloseSelected => (st, closeSelectedOrders st)
  | ClickDeselectAll => deselectAllOrders st
  | ClickRow orderId => (toggleOrderSelection orderId st, [])
  | ChangePageSize n => (onPageSizeChange n st, [])
  | ClickFirstPage => (goToPage 1 st, [])
  | ClickPrevPage => (goToPage (currentPage st - 1) st, [])
  | ClickNextPage => (goToPage (currentPage st + 1) st, [])
  | ClickLastPage => (goToPage (getTotalPages st) st, [])
  | ChangeMaxOrders value => (updateMaxOrdersLimit value st, [])
  | ModalConfirm =>
      match modal with
      | Some onConfirm => call onConfirm st
      | None => (st, [])
      end
  | ModalCancel => (st, [])
  end.

(** The program together with its collaborators: the dialog on display, the
    pending timers with their due times, the clock, and the effects
    performed so far with the time of each. *)
Record Runtime := mkRuntime {
  app : App;
  modal : option Callback;
  timers : list (Z * Callback);
  clock : Z;
  log : list (Z * Effect)
}.

Definition boot : Runtime :=
  {| app := constructor; modal := None; timers := []; clock := 0;
     log := [(0, NewWebSocket)] |}.

Definition perform (rt : Runtime) (e : Effect) : Runtime :=
  let rt := mkRuntime (app rt) (modal rt) (timers rt) (clock rt)
                      (log rt ++ [(clock rt, e)]) in
  match e with
  | ShowConfirmationModal _ onConfirm =>
      mkRuntime (app rt) (Some onConfirm) (timers rt) (clock rt) (log rt)
  | SetTimeout callback delay =>
      mkRuntime (app rt) (modal rt) (timers rt ++ [(clock rt + delay, callback)])
                (clock rt) (log rt)
  | _ => rt
  end.

(** One listener runs to completion; both dialog buttons hide the dialog
    before anything else. *)
Definition dispatch (ev : Event) (rt : Runtime) : Runtime :=
  let '(st, effects) := handle ev (modal rt) (app rt) in
  let shown :=
    match ev with
    | ModalConfirm | ModalCancel => None
    | _ => modal rt
    end in
  foldl perform (mkRuntime st shown (timers rt) (clock rt) (log rt)) effects.

(** A timer fires at its due time. *)
Definition fire (rt : Runtime) (timer : Z * Callback) : Runtime :=
  let '(st, effects) := call timer.2 (app rt) in
  foldl perform
    (mkRuntime st (modal rt) (timers rt) (Z.max (clock rt) timer.1) (log rt))
    effects.

(** Time passes until [t]: the timers due by then fire, earliest first. *)
Definition advance (t : Z) (rt : Runtime) : Runtime :=
  let due := JS.sort (λ a b, a.1 - b.1) (List.filter (λ timer, timer.1 <=? t) (timers rt)) in
  let pending := List.filter (λ timer, t <? timer.1) (timers rt) in
  let rt := foldl fire (mkRuntime (app rt) (modal rt) pending (clock rt) (log rt)) due in
  mkRuntime (app rt) (modal rt) (timers rt) (Z.max (clock rt) t) (log rt).

(** An event arrives at time [t]. *)
Definition deliver (rt : Runtime) (timed : Z * Event) : Runtime :=
  dispatch timed.2 (advance timed.1 rt).

Definition run (rt : Runtime) (events : list (Z * Event)) : Runtime :=
  foldl deliver rt events.

(** The connection attempts among the effects performed. *)
Definition connection_attempts (rt : Runtime) : list Z :=
  omap (λ entry, match entry.2 with NewWebSocket => Some entry.1 | _ => None end) (log rt).

(** ** Notions used in the statements *)

(** What [Map] guarantees by construction, and what the program maintains:
    keys are unique, and every order is stored under its own identifier. *)
Definition map_ok (m : list (string * Order)) : Prop :=
  NoDup (JS.map_keys m) ∧ Forall (λ kv, order_id kv.2 = kv.1) m.

(** The cache with its derived ordering. *)
Definition cache_ok (st : App) : Prop :=
  map_ok (orders st) ∧ ordersArray st = sorted_values (orders st).

#[global] Instance Order_eq_dec : EqDecision Order.
Proof. solve_decision. Defined.
#[global] Instance map_ok_dec (m : list (string * Order)) : Decision (map_ok m).
Proof. unfold map_ok. apply _. Defined.
#[global] Instance cache_ok_dec (st : App) : Decision (cache_ok st).
Proof. unfold cache_ok. apply _. Defined.

(** [this.orders.size]. *)
Definition cache_size (st : App) : Z := JS.map_size (orders st).

Definition cached (st : App) (orderId : string) : Prop :=
  orderId ∈ JS.map_keys (orders st).


(** The state after a frame has been handled. *)
Definition receive (st : App) (message : Message) : App :=
  (handleMessage message st).1.


(** The cache right after [this.orders.set] and the re-sort, before the
    capacity is enforced. *)
Definition inserted (order : Order) (st : App) : App :=
  let st := with_orders (JS.map_set (order_id order) order (orders st)) st in
  with_ordersArray (sorted_values (orders st)) st.

(** Newest first: no order is followed by a newer one. *)
Definition descending : list Order → Prop :=
  StronglySorted (λ a b, timestamp b ≤ timestamp a).

(** [a] was inserted into the cache before [b]. *)
Definition inserted_before (st : App) (a b : Order) : Prop :=
  ∃ front back,
    JS.map_values (orders st) = front ++ back ∧ a ∈ front ∧ b ∈ back.

(** An order the cache held in [st] and no longer holds in [st']. *)
Definition evicted (st st' : App) (order : Order) : Prop :=
  order ∈ JS.map_values (orders st) ∧ ¬ cached st' (order_id order).

Definition retained (st st' : App) (order : Order) : Prop :=
  order ∈ JS.map_values (orders st) ∧ cached st' (order_id order).

(** Every selected identifier is a key of the cache. *)
Definition selection_ok (st : App) : Prop :=
  ∀ orderId, orderId ∈ selectedOrders st → cached st orderId.

(** A handler left both the cache and the selection alone. *)
Definition cache_untouched (st st' : App) : Prop :=
  orders st' = orders st ∧ selectedOrders st' = selectedOrders st.

(** The identifiers of the rows on display.  [renderCurrentPage] rebuilds
    the table body, one row for each order of the current page, and
    [createOrderRow] gives each row a click listener for its own
    identifier; every handler that changes the cache, the page or the page
    size calls [renderCurrentPage] once it has done so. *)
Definition displayed (st : App) (orderId : string) : Prop :=
  orderId ∈ order_id <$> renderCurrentPage st.

(** The click listener of a row runs only for a row on display; every other
    event can occur in any state. *)
Definition permitted (st : App) (ev : Event) : Prop :=
  match ev with
  | ClickRow orderId => displayed st orderId
  | _ => True
  end.

Fixpoint permitted_run (rt : Runtime) (events : list (Z * Event)) : Prop :=
  match events with
  | [] => True
  | timed :: rest =>
      permitted (app (advance timed.1 rt)) timed.2 ∧ permitted_run (deliver rt timed) rest
  end.

(** The current page is one of the pages that exist (page 1 when the cache
    is empty). *)
Definition page_ok (st : App) : Prop :=
  1 ≤ currentPage st ≤ Z.max 1 (getTotalPages st).

(** The rows of page [p]. *)
Definition page_items (st : App) (p : Z) : list Order :=
  renderCurrentPage (with_currentPage p st).

Definition all_pages (st : App) : list (list Order) :=
  page_items st <$> seqZ 1 (getTotalPages st).

(** The text is a decimal numeral of a positive integer. *)
Definition is_decimal_digit (c : ascii) : bool :=
  let n := Z.of_nat (nat_of_ascii c) in (48 <=? n) && (n <=? 57).

Fixpoint all_digits (text : string) : bool :=
  match text with
  | String c rest => is_decimal_digit c && all_digits rest
  | EmptyString => true
  end.

Definition denotes_positive_integer (text : string) : bool :=
  all_digits text &&
  match parseInt text with
  | Int n => 0 <? n
  | NaN => false
  | Infinity negative => negb negative
  end.

(** An effect that neither opens a connection nor arms a timer nor puts the
    reconnection closure behind the dialog. *)
Definition quiet (e : Effect) : Prop :=
  match e with
  | NewWebSocket | SetTimeout _ _ | ShowConfirmationModal _ Reconnect => False
  | _ => True
  end.

(** The state after a sequence of events, no dialog being on display. *)
Definition app_after (st : App) (events : list Event) : App :=
  foldl (λ st ev, (handle ev None st).1) st events.

(** The commands among a list of effects. *)
Definition sent (effects : list Effect) : list Command :=
  omap (λ e, match e with Send c => Some c | _ => None end) effects.

(** The effects of a handler followed by those of the operator confirming
    every dialog it opened, the client being in state [st] by then. *)
Definition and_confirmed (effects : list Effect) (st : App) : list Effect :=
  effects ++
  (effects ≫= λ e,
     match e with
     | ShowConfirmationModal _ onConfirm => (call onConfirm st).2
     | _ => []
     end).

Definition is_open (ev : Event) : bool :=
  match ev with WsOpen => true | _ => false end.

(** ** Concrete orders and states used in the examples *)

Definition an_order (orderId state : string) (time : Z) : Order :=
  mkOrder orderId "Ada" state "High" "two crates" time None.

Definition order_A : Order := an_order "A" "Pending" 1000.
Definition order_B : Order := an_order "B" "Processing" 2000.
Definition order_C : Order := an_order "C" "Done" 3000.

(** A fresh client with capacity 2. *)
Definition capacity_two : App := with_maxOrders 2 constructor.

(** Two orders created at the same instant. *)
Definition twin_1 : Order := an_order "T1" "Pending" 5000.
Definition twin_2 : Order := an_order "T2" "Pending" 5000.
Definition capacity_one : App := with_maxOrders 1 constructor.

(** The orders numbered [0 .. n-1], each newer than the one before. *)
Definition numbered (n : nat) : list Order :=
  (λ i : nat, an_order ("ORD-" +:+ pretty i) "Pending" (1000 + Z.of_nat i)) <$> seq 0 n.

Definition with_57_orders : App :=
  foldl receive constructor (MsgOrderItem <$> numbered 57).

(** A connected client holding [A], [B] and [C]. *)
Definition connected_ABC : App :=
  with_isConnected true
    (foldl receive constructor
       [MsgOrderItem order_A; MsgOrderItem order_B; MsgOrderItem order_C]).

(** The scenario of three orders created at [t1], [t2], [t3] arriving in
    that order at a cache of capacity 2. *)
Definition scenario_ABC (t1 t2 t3 : Z) : App :=
  foldl receive capacity_two
    [MsgOrderItem (an_order "A" "Pending" t1);
     MsgOrderItem (an_order "B" "Pending" t2);
     MsgOrderItem (an_order "C" "Pending" t3)].

(** 57 orders, the operator on the last page, and then the capacity
    lowered to 10. *)
Definition on_last_page : App := app_after with_57_orders [ClickLastPage].
Definition shrunk_on_last_page : App := app_after on_last_page [ChangeMaxOrders "10"].

(** A connected client on which the operator has selected [A] (pending),
    [B] (processing) and [C] (done). *)
Definition selected_ABC : App :=
  app_after connected_ABC [ClickRow "A"; ClickRow "B"; ClickRow "C"].

(** [A], [B] and [C] inserted into a cache of capacity 2, the capacity not
    yet enforced. *)
Definition three_inserted : App :=
  inserted order_C (inserted order_B (inserted order_A capacity_two)).

(** A session: an order arrives, the operator selects its row, then sets
    the capacity to 1, and a newer order arrives. *)
Definition selecting_session : list (Z * Event) :=
  [(10, WsOpen);
   (20, WsMessage (MsgOrderItem order_A));
   (30, ClickRow "A");
   (40, ChangeMaxOrders "1");
   (50, WsMessage (MsgOrderItem order_B))].

(** A connected client whose transport closes at time 1000, and what
    happens before the reconnection timer is due. *)
Definition online : Runtime := dispatch WsOpen boot.
Definition while_offline : list (Z * Event) :=
  [(1500, WsError);
   (2000, WsMessage (MsgOrderItem order_A));
   (2500, ClickProcess "A")].


(** ** Views derived from the state *)

(** What the program writes into a button: whether it is disabled, and its
    label. *)
Record Button := mkButton {
  disabled : bool;
  textContent : string
}.

(** The filter [order && order.status === 'Pending'] over the selection. *)
Definition is_pending (st : App) (orderId : string) : bool :=
  match JS.map_get orderId (orders st) with
  | Some order => bool_decide (status order = "Pending")
  | None => false
  end.

Definition updateProcessSelectedButton (st : App) : Button :=
  let selectedPendingOrders := List.filter (is_pending st) (selectedOrders st) in
  let count := Z.of_nat (length selectedPendingOrders) in
  {| disabled := count =? 0;
     textContent :=
       if 0 <? count then "Process Selected (" +:+ show count +:+ ")"
       else "Process Selected" |}.

Definition updateCloseSelectedButton (st : App) : Button :=
  let selectedProcessingOrders := List.filter (is_processing st) (selectedOrders st) in
  let count := Z.of_nat (length selectedProcessingOrders) in
  {| disabled := count =? 0;
     textContent :=
       if 0 <? count then "Close Selected (" +:+ show count +:+ ")"
       else "Close Selected" |}.

Definition updateDeselectAllButton (st : App) : Button :=
  let selectedCount := JS.set_size (selectedOrders st) in
  {| disabled := selectedCount =? 0;
     textContent :=
       if 0 <? selectedCount then "Deselect All (" +:+ show selectedCount +:+ ")"
       else "Deselect All" |}.

(** The three counters of [updateStatistics]. *)
Record Statistics := mkStatistics {
  totalOrders : Z;
  pendingCount : Z;
  processingCount : Z
}.

(** The body of the [forEach] in [updateStatistics], on the two counters. *)
Definition count_order (counts : Z * Z) (kv : string * Order) : Z * Z :=
  let pendingCount := counts.1 in
  let processingCount := counts.2 in
  let pendingCount :=
    if bool_decide (status kv.2 = "Pending") then pendingCount + 1 else pendingCount in
  let processingCount :=
    if bool_decide (status kv.2 = "Processing") then processingCount + 1
    else processingCount in
  (pendingCount, processingCount).

Definition updateStatistics (st : App) : Statistics :=
  let counts := foldl count_order (0, 0) (orders st) in
  {| totalOrders := JS.map_size (orders st);
     pendingCount := counts.1;
     processingCount := counts.2 |}.

(** What [updatePaginationControls] shows: the information line and, for
    each of the four buttons, whether it is disabled. *)
Record PaginationControls := mkPaginationControls {
  paginationInfo : string;
  firstPageBtn : bool;
  prevPageBtn : bool;
  nextPageBtn : bool;
  lastPageBtn : bool
}.

Definition updatePaginationControls (st : App) : PaginationControls :=
  let totalPages := getTotalPages st in
  let totalOrders := Z.of_nat (length (ordersArray st)) in
  {| paginationInfo :=
       "Page " +:+ show (currentPage st) +:+ " of " +:+ show totalPages
       +:+ " (" +:+ show totalOrders +:+ " orders)";
     firstPageBtn := (currentPage st =? 1) || (totalPages =? 0);
     prevPageBtn := (currentPage st =? 1) || (totalPages =? 0);
     nextPageBtn := (currentPage st =? totalPages) || (totalPages =? 0);
     lastPageBtn := (currentPage st =? totalPages) || (totalPages =? 0) |}.

(** The markup [createOrderRow] puts in the last cell of a row: a button
    of class [btn-process] or [btn-close], given by the text of its
    [onclick] attribute, or the dash of a status indicator. *)
Inductive ActionButton :=
  | ProcessButton (onclick : string)
  | CloseButton (onclick : string)
  | NoButton.

(** The parts of a row that react to the operator: the identifier its
    click listener toggles, whether it carries the class [selected], and
    the markup of its action button.  The row is built by assigning
    [innerHTML]: the identifier, the customer name, the status, the
    priority and the details are interpolated as they are, in front of the
    button. *)
Record Row := mkRow {
  data_order_id : string;
  selected : bool;
  actionButton : ActionButton
}.

Definition createOrderRow (order : Order) (st : App) : Row :=
  {| data_order_id := order_id order;
     selected := JS.set_has (order_id order) (selectedOrders st);
     actionButton :=
       if bool_decide (status order = "Pending")
       then ProcessButton ("app.processOrder('" +:+ order_id order +:+ "')")
       else if bool_decide (status order = "Processing")
       then CloseButton ("app.closeOrder('" +:+ order_id order +:+ "')")
       else NoButton |}.

(** The rows of the table body after [renderCurrentPage]. *)
Definition rendered_rows (st : App) : list Row :=
  (λ order, createOrderRow order st) <$> renderCurrentPage st.

(** A character that stands for itself both in the markup of a row and in a
    single-quoted JavaScript string: not a control character (a line break
    ends a string literal), not the double quote that ends an attribute,
    not the ampersand and the < that start a character reference and a tag,
    not the quote and the backslash of the string literal. *)
Definition is_plain (c : ascii) : bool :=
  let n := Z.of_nat (nat_of_ascii c) in
  (32 <=? n) && negb ((n =? 34) || (n =? 38) || (n =? 39) || (n =? 60) || (n =? 92)).

Fixpoint plain (text : string) : bool :=
  match text with
  | String c rest => is_plain c && plain rest
  | EmptyString => true
  end.

(** The fields of the order that [createOrderRow] interpolates into the
    markup are plain text, so that the browser builds the cells and the
    button as they are written. *)
Definition plain_fields (order : Order) : Prop :=
  plain (order_id order) = true ∧ plain (customer_name order) = true ∧
  plain (status order) = true ∧ plain (priority order) = true ∧
  plain (details order) = true.

(** [text] without its prefix [prefix]. *)
Fixpoint strip_prefix (prefix text : string) : option string :=
  match prefix, text with
  | EmptyString, _ => Some text
  | String a prefix', String b text' =>
      if Ascii.eqb a b then strip_prefix prefix' text' else None
  | String _ _, EmptyString => None
  end.

(** The string a single-quoted literal of plain characters denotes, read
    after its opening quote, and the text after its closing quote. *)
Fixpoint plain_literal (text : string) : option (string * string) :=
  match text with
  | String c rest =>
      if Ascii.eqb c "'"%char then Some (EmptyString, rest)
      else if is_plain c then
        match plain_literal rest with
        | Some (value, after) => Some (String c value, after)
        | None => None
        end
      else None
  | EmptyString => None
  end.

(** The handlers an inline [onclick] of a row can call on the global [app]. *)
Inductive InlineCall :=
  | CallProcessOrder (orderId : string)
  | CallCloseOrder (orderId : string).

(** What the browser makes of the text of an [onclick] attribute that is a
    call of [app.processOrder] or [app.closeOrder] on one literal of plain
    characters.  Any other text is left unread ([None]): the model does not
    follow the browser through character references, escapes or further
    statements. *)
Definition inline_call (onclick : string) : option InlineCall :=
  match strip_prefix "app.processOrder('" onclick with
  | Some text =>
      match plain_literal text with
      | Some (orderId, ")") => Some (CallProcessOrder orderId)
      | _ => None
      end
  | None =>
      match strip_prefix "app.closeOrder('" onclick with
      | Some text =>
          match plain_literal text with
          | Some (orderId, ")") => Some (CallCloseOrder orderId)
          | _ => None
          end
      | None => None
      end
  end.

(** The effects of clicking the action button of a row, when its handler is
    one the model reads. *)
Definition click_action (button : ActionButton) (st : App) : option (list Effect) :=
  match button with
  | ProcessButton onclick | CloseButton onclick =>
      match inline_call onclick with
      | Some (CallProcessOrder orderId) => Some (processOrder orderId st)
      | Some (CallCloseOrder orderId) => Some (closeOrder orderId st)
      | None => None
      end
  | NoButton => Some []
  end.

(** ** The earlier version of the client, [static/js/app.js] *)

Module Legacy.

(** [addOrderToTable] and [updateOrderInTable] of [app.js]: the same
    insertion and re-sort, with no capacity (its client has no [maxOrders];
    the field is carried along untouched). *)
Definition addOrderToTable (order : Order) (st : App) : App :=
  let st := with_orders (JS.map_set (order_id order) order (orders st)) st in
  with_ordersArray (sorted_values (orders st)) st.

Definition updateOrderInTable (order : Order) (st : App) : App :=
  let st := with_orders (JS.map_set (order_id order) order (orders st)) st in
  with_ordersArray (sorted_values (orders st)) st.

(** [closeOrder] of [app.js]: no look-up, no dialog. *)
Definition closeOrder (orderId : string) (st : App) : list Effect :=
  if negb (isConnected st) then not_connected
  else [Send (close_order orderId)].

Definition handleMessage (message : Message) (st : App) : App * list Effect :=
  match message with
  | MsgOrderItem data => (addOrderToTable data st, [])
  | MsgStatus text => (st, [ShowStatus text "success"])
  | MsgError text => (st, [ShowStatus text "error"])
  | MsgOrderUpdated data => (updateOrderInTable data st, [])
  | MsgUnknown _ => (st, [])
  end.

Definition receive (st : App) (message : Message) : App :=
  (handleMessage message st).1.

End Legacy.

(** ** Further notions used in the statements *)

(** [a] comes before [b] in the list. *)
Definition comes_before {A} (l : list A) (a b : A) : Prop :=
  ∃ front back, l = front ++ back ∧ a ∈ front ∧ b ∈ back.

(** No event of the run changes the capacity, and page sizes are positive. *)
Definition keeps_capacity (ev : Event) : Prop :=
  match ev with
  | ChangeMaxOrders _ => False
  | ChangePageSize n => 0 < n
  | _ => True
  end.

(** The events that are neither an order frame nor a capacity change. *)
Definition leaves_cache (ev : Event) : Prop :=
  match ev with
  | WsMessage (MsgOrderItem _) | WsMessage (MsgOrderUpdated _) | ChangeMaxOrders _ => False
  | _ => True
  end.

(** Whether a click on a pagination button changes the state. *)
Definition click_changes (ev : Event) (st : App) : bool :=
  negb (bool_decide (currentPage (handle ev None st).1 = currentPage st)).

(** Successive transport failures: each close comes no sooner than the
    reconnection attempt that follows the one before. *)
Fixpoint spaced (t : Z) (closes : list Z) : Prop :=
  match closes with
  | [] => True
  | u :: rest => t + 3000 ≤ u ∧ spaced u rest
  end.

(** ** Further concrete inputs *)

Definition order_D : Order := an_order "D" "Pending" 4000.

(** Capacity 2 after [A], [B], [C]: the cache is full with [B] and [C]. *)
Definition full_BC : App :=
  foldl receive capacity_two
    [MsgOrderItem order_A; MsgOrderItem order_B; MsgOrderItem order_C].

(** [A], [B], [C] cached and selected, and a capacity of 1 not yet enforced. *)
Definition crowded_selection : App := with_maxOrders 1 selected_ABC.

(** The same selection on a client that has lost its connection. *)
Definition offline_selected : App := with_isConnected false selected_ABC.

(** A session without any capacity change. *)
Definition browsing_session : list (Z * Event) :=
  [(10, WsMessage (MsgOrderItem order_A));
   (20, ChangePageSize 1);
   (30, WsMessage (MsgOrderItem order_B));
   (40, ClickNextPage);
   (50, WsMessage (MsgOrderUpdated order_A));
   (60, ClickLastPage)].

(** A session of operator actions only. *)
Definition clicking_session : list (Z * Event) :=
  [(10, ClickRow "A"); (20, ClickProcess "A"); (30, ClickCloseSelected);
   (40, ModalCancel); (50, ClickNextPage); (60, WsError)].

(** A client holding [A], [B], [C] together with its collaborators. *)
Definition serving_ABC : Runtime :=
  mkRuntime connected_ABC None [] 0 [].

(** * Properties *)

(** ** The JavaScript containers *)

Section MapFacts.
Context {V : Type}.
Implicit Types (m : list (string * V)) (k : string) (v : V).

Lemma map_keys_set k v m :
  JS.map_keys (JS.map_set k v m) =
  if decide (k ∈ JS.map_keys m) then JS.map_keys m else JS.map_keys m ++ [k].
Proof.
  induction m as [|[k' v'] m IH]; simpl.
  - destruct (decide (k ∈ [])) as [H|H]; [by apply elem_of_nil in H | done].
  - destruct (decide (k' = k)) as [->|Hne]; simpl.
    + by rewrite decide_True by apply list_elem_of_here.
    + unfold JS.map_keys in *. rewrite IH.
      destruct (decide (k ∈ m.*1)) as [Hin|Hnin].
      * rewrite decide_True by (by apply list_elem_of_further). done.
      * rewrite decide_False; [done|].
        rewrite elem_of_cons. intros [?|?]; congruence.
Qed.

Lemma length_map_set k v m :
  length (JS.map_set k v m) =
  if decide (k ∈ JS.map_keys m) then length m else S (length m).
Proof.
  rewrite <-(length_fmap fst (JS.map_set k v m)).
  fold (JS.map_keys (JS.map_set k v m)). rewrite map_keys_set.
  case_decide; unfold JS.map_keys; rewrite ?length_app, length_fmap; simpl; lia.
Qed.

Lemma elem_of_map_set kv k v m :
  kv ∈ JS.map_set k v m → kv = (k, v) ∨ kv ∈ m.
Proof.
  induction m as [|[k' v'] m IH]; simpl.
  - rewrite list_elem_of_singleton. auto.
  - case_decide; rewrite !elem_of_cons; intuition auto.
Qed.

Lemma map_keys_delete k m :
  JS.map_keys (JS.map_delete k m) = filter (λ k', k' ≠ k) (JS.map_keys m).
Proof.
  unfold JS.map_keys, JS.map_delete.
  induction m as [|[k' v'] m IH]; [done|].
  rewrite fmap_cons, !filter_cons; simpl.
  destruct (decide (k' ≠ k)); [rewrite fmap_cons; simpl|]; by rewrite IH.
Qed.

Lemma map_get_Some k v m :
  JS.map_get k m = Some v → (k, v) ∈ m.
Proof.
  induction m as [|[k' v'] m IH]; simpl; [done|].
  case_decide; [intros [= ->]; subst; left | right; auto].
Qed.

Lemma map_get_None k m :
  JS.map_get k m = None ↔ k ∉ JS.map_keys m.
Proof.
  unfold JS.map_keys.
  induction m as [|[k' v'] m IH]; simpl.
  - split; [intros _; apply not_elem_of_nil | done].
  - case_decide; rewrite not_elem_of_cons.
    + split; [done | intros [? _]; congruence].
    + rewrite IH. intuition congruence.
Qed.
End MapFacts.

Section SortFacts.
Implicit Types (l : list Order) (x y : Order).

Lemma sort_insert_perm x l : JS.sort_insert newest_first x l ≡ₚ x :: l.
Proof.
  induction l as [|y l IH]; simpl; [done|].
  case_match; [done|]. by rewrite IH, Permutation_swap.
Qed.

Lemma sort_perm l : JS.sort newest_first l ≡ₚ l.
Proof.
  induction l as [|x l IH]; simpl; [done|].
  by rewrite sort_insert_perm, IH.
Qed.

Lemma length_sort l : length (JS.sort newest_first l) = length l.
Proof. by rewrite sort_perm. Qed.

Lemma sort_insert_descending x l :
  descending l → descending (JS.sort_insert newest_first x l).
Proof.
  unfold descending, newest_first.
  induction 1 as [|y l Hl IH Hy]; simpl.
  - repeat constructor.
  - destruct (Z.leb_spec (timestamp y - timestamp x) 0).
    + constructor; [by constructor|].
      constructor; [lia|].
      eapply Forall_impl; [exact Hy|]. simpl. intros; lia.
    + constructor; [done|].
      rewrite sort_insert_perm. constructor; [lia | done].
Qed.

Lemma sort_descending l : descending (JS.sort newest_first l).
Proof.
  induction l; simpl; [constructor | by apply sort_insert_descending].
Qed.

Lemma sort_insert_front x l :
  Forall (λ y, timestamp y ≤ timestamp x) l →
  JS.sort_insert newest_first x l = x :: l.
Proof.
  destruct 1 as [|y l Hy _]; simpl; [done|].
  unfold newest_first. by rewrite (proj2 (Z.leb_le _ _)) by lia.
Qed.

(** The sort commutes with every filter. *)
Lemma sort_insert_filter (P : Order → Prop) `{∀ o, Decision (P o)} x l :
  descending l →
  filter P (JS.sort_insert newest_first x l) =
  if decide (P x) then JS.sort_insert newest_first x (filter P l) else filter P l.
Proof.
  induction 1 as [|y l Hl IH Hy]; simpl.
  - rewrite filter_cons, filter_nil. by case_decide.
  - destruct (Z.leb_spec (newest_first x y) 0) as [Hle|Hgt].
    + rewrite (filter_cons _ x). case_decide; [|done].
      rewrite sort_insert_front; [done|].
      apply Forall_forall. intros z [_ Hz]%list_elem_of_filter.
      unfold newest_first in Hle. apply elem_of_cons in Hz as [->|Hz]; [lia|].
      rewrite Forall_forall in Hy. specialize (Hy z Hz). simpl in Hy. lia.
    + rewrite !(filter_cons _ y), IH.
      repeat case_decide; simpl; try done.
      by rewrite (proj2 (Z.leb_gt _ _) Hgt).
Qed.

Lemma sort_filter (P : Order → Prop) `{∀ o, Decision (P o)} l :
  JS.sort newest_first (filter P l) = filter P (JS.sort newest_first l).
Proof.
  induction l as [|x l IH]; [done|].
  rewrite filter_cons. simpl.
  rewrite sort_insert_filter by apply sort_descending.
  case_decide; simpl; by rewrite IH.
Qed.

(** Stability: orders with equal timestamps keep their relative order. *)
Lemma sort_insert_stable (t : Z) x l :
  filter (λ o, timestamp o = t) (JS.sort_insert newest_first x l) =
  filter (λ o, timestamp o = t) (x :: l).
Proof.
  induction l as [|y l IH]; simpl; [done|].
  destruct (Z.leb_spec (newest_first x y) 0) as [Hle|Hgt]; [done|].
  rewrite (filter_cons _ y), IH, !filter_cons.
  unfold newest_first in Hgt.
  repeat case_decide; try done; lia.
Qed.

Lemma sort_stable (t : Z) l :
  filter (λ o, timestamp o = t) (JS.sort newest_first l) =
  filter (λ o, timestamp o = t) l.
Proof.
  induction l as [|x l IH]; simpl; [done|].
  by rewrite sort_insert_stable, !filter_cons, IH.
Qed.
End SortFacts.

Section Eviction.
Implicit Types (st : App) (l arr : list Order).

Lemma filter_all {A} (P : A → Prop) `{∀ x, Decision (P x)} (a : list A) :
  (∀ x, P x) → filter P a = a.
Proof.
  intros HP. induction a as [|x a IH]; [done|].
  by rewrite filter_cons_True, IH.
Qed.

Lemma slice_from_negative {A} (a : list A) (r : Z) :
  0 < r → JS.slice_from a (- r) = drop (length a - Z.to_nat r) a.
Proof.
  intros Hr. unfold JS.slice_from, JS.slice, JS.relative_index.
  rewrite (proj2 (Z.ltb_lt (- r) 0)) by lia.
  destruct (Z.ltb_spec (Z.of_nat (length a)) 0) as [?|_]; [lia|].
  rewrite Z.min_id.
  replace (Z.to_nat (Z.max (Z.of_nat (length a) + - r) 0))
    with (length a - Z.to_nat r)%nat by lia.
  apply take_ge. rewrite length_drop. lia.
Qed.

Lemma foldl_evict l st :
  let gone := order_id <$> l in
  foldl evict st l =
  mkApp (filter (λ kv, kv.1 ∉ gone) (orders st)) (ordersArray st)
        (filter (λ k, k ∉ gone) (selectedOrders st)) (isConnected st)
        (currentPage st) (pageSize st) (maxOrders st).
Proof.
  simpl. revert st. induction l as [|o l IH]; intros st; simpl.
  - rewrite !filter_all by (intros; apply not_elem_of_nil). by destruct st.
  - rewrite IH. unfold evict, JS.map_delete, JS.set_delete; simpl.
    f_equal.
    + rewrite list_filter_filter. apply list_filter_iff.
      intros kv. rewrite not_elem_of_cons. tauto.
    + rewrite list_filter_filter. apply list_filter_iff.
      intros k. rewrite not_elem_of_cons. tauto.
Qed.

(** The orders [enforceMaxOrdersLimit] removes: those past the first
    [maxOrders] of the ordering. *)
Lemma enforce_fields st :
  let gone := order_id <$> drop (Z.to_nat (maxOrders st)) (ordersArray st) in
  orders (enforceMaxOrdersLimit st) = filter (λ kv, kv.1 ∉ gone) (orders st) ∧
  selectedOrders (enforceMaxOrdersLimit st) = filter (λ k, k ∉ gone) (selectedOrders st) ∧
  isConnected (enforceMaxOrdersLimit st) = isConnected st ∧
  currentPage (enforceMaxOrdersLimit st) = currentPage st ∧
  pageSize (enforceMaxOrdersLimit st) = pageSize st ∧
  maxOrders (enforceMaxOrdersLimit st) = maxOrders st.
Proof.
  simpl. unfold enforceMaxOrdersLimit.
  destruct (Z.ltb_spec (maxOrders st) (Z.of_nat (length (ordersArray st)))) as [Hlt|Hge].
  - rewrite slice_from_negative by lia.
    replace (length (ordersArray st)
             - Z.to_nat (Z.of_nat (length (ordersArray st)) - maxOrders st))%nat
      with (Z.to_nat (maxOrders st)) by lia.
    rewrite foldl_evict. simpl. by repeat split.
  - rewrite drop_ge by lia. simpl.
    rewrite !filter_all by (intros; apply not_elem_of_nil). by repeat split.
Qed.
End Eviction.

Section CacheInvariant.
Implicit Types (st : App) (m : list (string * Order)).

Lemma map_ok_ids m : map_ok m → order_id <$> JS.map_values m = JS.map_keys m.
Proof.
  intros [_ Hid]. unfold JS.map_values, JS.map_keys.
  induction Hid as [|[k o] m Hk _ IH]; [done|].
  rewrite !fmap_cons, IH. simpl in *. by rewrite Hk.
Qed.

Lemma map_ok_filter (P : string * Order → Prop) `{∀ kv, Decision (P kv)} m :
  map_ok m → map_ok (filter P m).
Proof.
  intros [Hnd Hid]. split.
  - unfold JS.map_keys in *. eapply sublist_NoDup; [exact Hnd|].
    apply fmap_sublist, sublist_filter.
  - rewrite Forall_forall in *. intros kv [_ Hin]%list_elem_of_filter. auto.
Qed.

Lemma map_ok_set (o : Order) m :
  map_ok m → map_ok (JS.map_set (order_id o) o m).
Proof.
  intros [Hnd Hid]. split.
  - rewrite map_keys_set. case_decide; [done|].
    apply NoDup_app. split_and!; [done| |apply NoDup_singleton].
    intros k Hk ->%list_elem_of_singleton. done.
  - apply Forall_forall. intros kv [->|Hin]%elem_of_map_set; [done|].
    rewrite Forall_forall in Hid. by apply Hid.
Qed.

Lemma values_filter_ids (gone : list string) m :
  map_ok m →
  JS.map_values (filter (λ kv, kv.1 ∉ gone) m) =
  filter (λ o, order_id o ∉ gone) (JS.map_values m).
Proof.
  intros [_ Hid]. unfold JS.map_values.
  induction Hid as [|[k o] m Hk _ IH]; [done|].
  rewrite fmap_cons, !filter_cons. simpl in *. rewrite Hk.
  case_decide; rewrite ?fmap_cons; simpl; by rewrite IH.
Qed.

Lemma filter_keeps_prefix {A} (f : A → string) (l1 l2 : list A) :
  NoDup (f <$> (l1 ++ l2)) →
  filter (λ x, f x ∉ f <$> l2) (l1 ++ l2) = l1.
Proof.
  rewrite fmap_app. intros (_ & Hdisj & Hnd2)%NoDup_app.
  rewrite filter_app.
  assert (filter (λ x, f x ∉ f <$> l2) l1 = l1) as ->.
  { clear Hnd2. induction l1 as [|x l1 IH]; [done|].
    rewrite filter_cons_True, IH; [done| |].
    - intros y Hy. apply Hdisj. rewrite fmap_cons. by right.
    - apply Hdisj. rewrite fmap_cons. by left. }
  assert (∀ l, filter (λ x, f x ∉ f <$> l2) l = [] ∨ ¬ l ⊆ l2) as Hnil.
  { intros l. induction l as [|x l IH]; [by left|].
    destruct IH as [IH|IH].
    - destruct (decide (f x ∈ f <$> l2)).
      + left. by rewrite filter_cons_False by tauto.
      + right. intros Hsub. apply n, list_elem_of_fmap_2, Hsub. by left.
    - right. intros Hsub. apply IH. intros y Hy. apply Hsub. by right. }
  destruct (Hnil l2) as [->|Hn]; [by rewrite app_nil_r | by destruct Hn].
Qed.

Lemma cache_ok_ids st : cache_ok st → NoDup (order_id <$> ordersArray st).
Proof.
  intros [Hm ->]. unfold sorted_values.
  rewrite sort_perm, map_ok_ids by done. apply Hm.
Qed.

Lemma enforce_ordering st :
  cache_ok st →
  ordersArray (enforceMaxOrdersLimit st) =
    take (Z.to_nat (maxOrders st)) (ordersArray st) ∧
  cache_ok (enforceMaxOrdersLimit st).
Proof.
  intros Hok. pose proof (cache_ok_ids st Hok) as Hnd. destruct Hok as [Hm Harr].
  destruct (enforce_fields st) as (Ho & _). simpl in Ho.
  assert (sorted_values (orders (enforceMaxOrdersLimit st)) =
          take (Z.to_nat (maxOrders st)) (ordersArray st)) as Hsorted.
  { rewrite Ho. unfold sorted_values.
    rewrite values_filter_ids, sort_filter by done.
    fold (sorted_values (orders st)). rewrite <-Harr.
    pose proof (filter_keeps_prefix order_id
      (take (Z.to_nat (maxOrders st)) (ordersArray st))
      (drop (Z.to_nat (maxOrders st)) (ordersArray st))) as Hkeep.
    rewrite take_drop in Hkeep. by apply Hkeep. }
  assert (ordersArray (enforceMaxOrdersLimit st) =
          take (Z.to_nat (maxOrders st)) (ordersArray st)) as Htake.
  { unfold enforceMaxOrdersLimit in *.
    destruct (Z.ltb_spec (maxOrders st) (Z.of_nat (length (ordersArray st)))).
    - exact Hsorted.
    - by rewrite take_ge by lia. }
  split; [done|]. split.
  - rewrite Ho. by apply map_ok_filter.
  - by rewrite Htake, Hsorted.
Qed.

Lemma cache_size_ordering st :
  cache_ok st → cache_size st = Z.of_nat (length (ordersArray st)).
Proof.
  intros [_ ->]. unfold cache_size, JS.map_size, sorted_values.
  unfold JS.map_values. by rewrite length_sort, length_fmap.
Qed.

Lemma enforce_size st :
  cache_ok st → 0 ≤ maxOrders st →
  cache_size (enforceMaxOrdersLimit st) = Z.min (cache_size st) (maxOrders st).
Proof.
  intros Hok Hcap. destruct (enforce_ordering st Hok) as [Htake Hok'].
  rewrite !cache_size_ordering, Htake, length_take by done. lia.
Qed.

Lemma inserted_ok (o : Order) st :
  map_ok (orders st) → cache_ok (inserted o st).
Proof. intros Hm. split; [by apply map_ok_set | done]. Qed.
End CacheInvariant.

Section Claims12.
Implicit Types (st : App) (o : Order).




Lemma NoDup_fmap_eq {A} (f : A → string) (l : list A) x y :
  NoDup (f <$> l) → x ∈ l → y ∈ l → f x = f y → x = y.
Proof.
  induction l as [|z l IH]; [by intros _ ?%elem_of_nil|].
  rewrite fmap_cons, NoDup_cons. intros [Hz Hnd] Hx Hy Hf.
  apply elem_of_cons in Hx as [->|Hx]; apply elem_of_cons in Hy as [->|Hy]; try done.
  - destruct Hz. rewrite Hf. by apply list_elem_of_fmap_2.
  - destruct Hz. rewrite <-Hf. by apply list_elem_of_fmap_2.
  - by apply IH.
Qed.

Lemma filter_app_inv {A} (P : A → Prop) `{∀ x, Decision (P x)} (l u v : list A) :
  filter P l = u ++ v →
  ∃ l1 l2, l = l1 ++ l2 ∧ filter P l1 = u ∧ filter P l2 = v.
Proof.
  revert u. induction l as [|x l IH]; intros u Hl.
  - rewrite filter_nil in Hl. symmetry in Hl.
    apply app_eq_nil in Hl as [-> ->]. by exists [], [].
  - rewrite filter_cons in Hl. destruct (decide (P x)) as [HP|HP].
    + destruct u as [|y u]; simpl in Hl.
      * exists [], (x :: l). by rewrite filter_cons_True.
      * injection Hl as <- Hl. destruct (IH u Hl) as (l1 & l2 & -> & <- & <-).
        exists (x :: l1), l2. by rewrite filter_cons_True.
    + destruct (IH u Hl) as (l1 & l2 & -> & <- & <-).
      exists (x :: l1), l2. by rewrite filter_cons_False.
Qed.

(** Which orders go and which stay, in terms of the ordering. *)
Lemma evicted_in_tail st o :
  cache_ok st → evicted st (enforceMaxOrdersLimit st) o →
  o ∈ drop (Z.to_nat (maxOrders st)) (ordersArray st).
Proof.
  intros Hok [Hin Hgone]. pose proof (cache_ok_ids st Hok) as Hnd.
  destruct Hok as [Hm Harr].
  destruct (enforce_fields st) as (Ho & _). simpl in Ho.
  unfold cached in Hgone. rewrite Ho in Hgone.
  assert (o ∈ ordersArray st) as Harr_in
    by (by rewrite Harr; unfold sorted_values; rewrite sort_perm).
  destruct (decide (order_id o ∈ order_id <$>
    drop (Z.to_nat (maxOrders st)) (ordersArray st))) as [Hd|Hd].
  - apply list_elem_of_fmap in Hd as (o' & Hid & Ho').
    assert (o = o') as <-; [|done].
    eapply NoDup_fmap_eq; [exact Hnd|done| |done].
    eapply elem_of_sublist; [exact Ho'|apply sublist_drop].
  - destruct Hgone. unfold JS.map_keys.
    apply list_elem_of_fmap. unfold JS.map_values in Hin.
    apply list_elem_of_fmap in Hin as ([k o'] & -> & Hin). simpl in *.
    exists (k, o'). destruct Hm as [_ Hid]. rewrite Forall_forall in Hid.
    pose proof (Hid _ Hin) as Hk. simpl in Hk. subst k.
    split; [done|]. apply list_elem_of_filter. by split.
Qed.

Lemma retained_in_head st o :
  cache_ok st → retained st (enforceMaxOrdersLimit st) o →
  o ∈ take (Z.to_nat (maxOrders st)) (ordersArray st).
Proof.
  intros Hok [Hin Hkept]. destruct Hok as [Hm Harr].
  destruct (enforce_fields st) as (Ho & _). simpl in Ho.
  unfold cached in Hkept. rewrite Ho in Hkept.
  assert (o ∈ ordersArray st) as Harr_in
    by (by rewrite Harr; unfold sorted_values; rewrite sort_perm).
  rewrite <-(take_drop (Z.to_nat (maxOrders st)) (ordersArray st)) in Harr_in.
  apply elem_of_app in Harr_in as [?|Hd]; [done|].
  unfold JS.map_keys in Hkept.
  apply list_elem_of_fmap in Hkept as (kv & Hid & [Hnot _]%list_elem_of_filter).
  destruct Hnot. rewrite <-Hid. by apply list_elem_of_fmap_2.
Qed.
End Claims12.

Lemma scenario_ABC_keys t1 t2 t3 :
  t1 < t2 < t3 →
  JS.map_keys (orders (scenario_ABC t1 t2 t3)) = ["B"; "C"] ∧
  order_id <$> ordersArray (scenario_ABC t1 t2 t3) = ["C"; "B"].
Proof.
  intros H.
  assert (∀ a b, timestamp a < timestamp b → (newest_first a b <=? 0) = false) as Hlt
    by (intros; apply Z.leb_gt; unfold newest_first; lia).
  assert (∀ a b, timestamp b < timestamp a → (newest_first a b <=? 0) = true) as Hgt
    by (intros; apply Z.leb_le; unfold newest_first; lia).
  set (A := an_order "A" "Pending" t1).
  set (B := an_order "B" "Pending" t2).
  set (C := an_order "C" "Pending" t3).
  assert (receive capacity_two (MsgOrderItem A)
          = mkApp [("A", A)] [A] [] false 1 25 2) as E1 by reflexivity.
  assert (receive (mkApp [("A", A)] [A] [] false 1 25 2) (MsgOrderItem B)
          = mkApp [("A", A); ("B", B)] [B; A] [] false 1 25 2) as E2.
  { unfold receive, handleMessage, addOrderToTable, sorted_values; simpl.
    rewrite Hlt by (simpl; lia). reflexivity. }
  assert (receive (mkApp [("A", A); ("B", B)] [B; A] [] false 1 25 2) (MsgOrderItem C)
          = mkApp [("B", B); ("C", C)] [C; B] [] false 1 25 2) as E3.
  { unfold receive, handleMessage, addOrderToTable, sorted_values; simpl.
    rewrite (Hlt B C) by (simpl; lia). simpl.
    rewrite (Hlt A C) by (simpl; lia). simpl.
    rewrite (Hlt A B) by (simpl; lia).
    unfold enforceMaxOrdersLimit, sorted_values; simpl.
    rewrite (Hlt B C) by (simpl; lia). reflexivity. }
  unfold scenario_ABC. simpl foldl. fold A B C. rewrite E1, E2, E3. done.
Qed.

(** Claim C2, as amended.  For a non-negative capacity,
    [enforceMaxOrdersLimit] removes exactly [max 0 (size - capacity)]
    orders and keeps the first [capacity] orders of the newest-first
    ordering.  No evicted order is newer than a retained one, and of two
    orders with the same timestamp the one inserted later is evicted first:
    a retained order with the timestamp of an evicted one was inserted
    before it.  With capacity 2 and [A], [B], [C] created at [t1 < t2 < t3]
    arriving in that order, the cache retains exactly [B] and [C]. *)
Theorem eviction_removes_oldest (st : App) :
  cache_ok st → 0 ≤ maxOrders st →
  let st' := enforceMaxOrdersLimit st in
  cache_size st' = cache_size st - Z.max 0 (cache_size st - maxOrders st) ∧
  ordersArray st' = take (Z.to_nat (maxOrders st)) (ordersArray st) ∧
  (∀ gone kept,
     evicted st st' gone → retained st st' kept →
     timestamp gone ≤ timestamp kept ∧
     (timestamp gone = timestamp kept → inserted_before st kept gone)) ∧
  (∀ t1 t2 t3, t1 < t2 < t3 →
     JS.map_keys (orders (scenario_ABC t1 t2 t3)) = ["B"; "C"]).
Proof.
  intros Hok Hcap st'. split_and!.
  - unfold st'. rewrite enforce_size by done. lia.
  - by apply enforce_ordering.
  - intros gone kept Hgone%evicted_in_tail Hkept%retained_in_head; [|done..].
    pose proof (sort_descending (JS.map_values (orders st))) as Hsorted.
    fold (sorted_values (orders st)) in Hsorted.
    destruct Hok as [Hm Harr]. rewrite <-Harr in Hsorted.
    rewrite <-(take_drop (Z.to_nat (maxOrders st)) (ordersArray st)) in Hsorted.
    split.
    + by eapply StronglySorted_app_1_elem_of in Hsorted.
    + intros Htie.
      pose proof (sort_stable (timestamp kept) (JS.map_values (orders st))) as Hst.
      fold (sorted_values (orders st)) in Hst. rewrite <-Harr in Hst.
      rewrite <-(take_drop (Z.to_nat (maxOrders st)) (ordersArray st)) in Hst.
      rewrite filter_app in Hst. symmetry in Hst.
      apply filter_app_inv in Hst as (front & back & Hsplit & Hfront & Hback).
      exists front, back. split; [done|]. split.
      * assert (kept ∈ filter (λ o, timestamp o = timestamp kept) front) as Hin.
        { rewrite Hfront. by apply list_elem_of_filter. }
        by apply list_elem_of_filter in Hin as [_ ?].
      * assert (gone ∈ filter (λ o, timestamp o = timestamp kept) back) as Hin.
        { rewrite Hback. by apply list_elem_of_filter. }
        by apply list_elem_of_filter in Hin as [_ ?].
  - intros. by apply scenario_ABC_keys.
Qed.

(** Claim C2 as stated fails on ties.  [T1] and [T2] carry the same
    timestamp and [T1] was inserted first; with capacity 1 it is [T2], the
    one inserted last, that is evicted, and [T1] stays. *)
Lemma eviction_tie_evicts_latest :
  let st := inserted twin_2 (inserted twin_1 capacity_one) in
  let st' := enforceMaxOrdersLimit st in
  JS.map_values (orders st) = [twin_1; twin_2] ∧
  timestamp twin_1 = timestamp twin_2 ∧
  JS.map_values (orders st') = [twin_1] ∧
  evicted st st' twin_2 ∧
  ¬ inserted_before st twin_2 twin_1.
Proof.
  cbv zeta. split_and!; try by vm_compute.
  - split; [by vm_compute; right; left|].
    unfold cached. vm_compute. by intros ?%list_elem_of_singleton.
  - intros (front & back & Hsplit & H2 & H1).
    change (JS.map_values (orders (inserted twin_2 (inserted twin_1 capacity_one))))
      with [twin_1; twin_2] in Hsplit.
    destruct front as [|x [|y [|z front]]]; simplify_eq/=.
    + by apply elem_of_nil in H2.
    + apply list_elem_of_singleton in H2. discriminate.
    + by apply elem_of_nil in H1.
Qed.

(** ** The selection stays inside the cache *)

Section Selection.
Implicit Types (st : App) (rt : Runtime) (ev : Event) (o : Order).

Lemma cached_inserted (o : Order) st orderId :
  cached st orderId → cached (inserted o st) orderId.
Proof.
  unfold cached, inserted; simpl. rewrite map_keys_set.
  case_decide; [done|]. rewrite elem_of_app. by left.
Qed.

Lemma selection_ok_enforce st :
  selection_ok st → selection_ok (enforceMaxOrdersLimit st).
Proof.
  intros Hsel orderId. unfold cached.
  destruct (enforce_fields st) as (-> & -> & _). simpl.
  intros [Hkeep Hin]%list_elem_of_filter.
  apply Hsel in Hin. unfold cached, JS.map_keys in *.
  apply list_elem_of_fmap in Hin as (kv & -> & Hin).
  apply list_elem_of_fmap_2, list_elem_of_filter. by split.
Qed.

(** An identifier that leaves the cache leaves the selection with it. *)
Lemma enforce_deselects st orderId :
  cached st orderId → ¬ cached (enforceMaxOrdersLimit st) orderId →
  orderId ∉ selectedOrders (enforceMaxOrdersLimit st).
Proof.
  unfold cached. destruct (enforce_fields st) as (-> & -> & _). simpl.
  intros Hin Hout [Hkeep _]%list_elem_of_filter. apply Hout.
  unfold JS.map_keys in *.
  apply list_elem_of_fmap in Hin as (kv & -> & Hin).
  apply list_elem_of_fmap_2, list_elem_of_filter. by split.
Qed.

Lemma call_state (callback : Callback) st : (call callback st).1 = st.
Proof. destruct callback; simpl; [done..|]. by case_match. Qed.

Lemma goToPage_untouched page st : cache_untouched st (goToPage page st).
Proof. unfold goToPage. by case_match. Qed.

Lemma handle_cases ev shown st :
  let st' := (handle ev shown st).1 in
  cache_untouched st st' ∨
  (∃ o, st' = enforceMaxOrdersLimit (inserted o st)) ∨
  (∃ n, st' = enforceMaxOrdersLimit (with_maxOrders n st)) ∨
  (orders st' = orders st ∧ selectedOrders st' = []) ∨
  (∃ orderId, ev = ClickRow orderId ∧ st' = toggleOrderSelection orderId st).
Proof.
  destruct ev as [|[]| | | | | | | | | | | | | | | |]; simpl;
    try (by left); try (left; apply goToPage_untouched).
  - right; left. by eexists.
  - right; left. by eexists.
  - unfold deselectAllOrders. case_match; simpl; [by left|].
    by right; right; right; left.
  - right; right; right; right. by eexists.
  - right; right; left. by eexists.
  - left. destruct shown as [callback|]; [|done]. by rewrite call_state.
Qed.

Lemma handle_selection ev shown st :
  selection_ok st → (∀ orderId, ev = ClickRow orderId → cached st orderId) →
  selection_ok (handle ev shown st).1.
Proof.
  intros Hsel Hev.
  destruct (handle_cases ev shown st)
    as [[Ho Hs]|[[o ->]|[[n ->]|[[Ho Hs]|(orderId & -> & Heq)]]]].
  - intros k. unfold cached. rewrite Ho, Hs. apply Hsel.
  - apply selection_ok_enforce. intros k Hk. by apply cached_inserted, Hsel.
  - by apply selection_ok_enforce.
  - intros k. rewrite Hs. by intros ?%elem_of_nil.
  - rewrite Heq. specialize (Hev orderId eq_refl). unfold toggleOrderSelection.
    case_match; intros k; unfold cached; simpl.
    + intros [_ Hk]%list_elem_of_filter. by apply Hsel.
    + unfold JS.set_add. case_match; [apply Hsel|].
      intros [Hk| ->%list_elem_of_singleton]%elem_of_app; [by apply Hsel|done].
Qed.

Lemma handle_deselects ev shown st orderId :
  cached st orderId → ¬ cached (handle ev shown st).1 orderId →
  orderId ∉ selectedOrders (handle ev shown st).1.
Proof.
  intros Hin Hout.
  destruct (handle_cases ev shown st)
    as [[Ho Hs]|[[o Heq]|[[n Heq]|[[Ho Hs]|(k & -> & Heq)]]]].
  - destruct Hout. unfold cached. by rewrite Ho.
  - rewrite Heq in *. apply enforce_deselects; [|done]. by apply cached_inserted.
  - rewrite Heq in *. by apply enforce_deselects.
  - destruct Hout. unfold cached. by rewrite Ho.
  - destruct Hout. rewrite Heq. unfold toggleOrderSelection. by case_match.
Qed.

Lemma app_foldl_perform (effects : list Effect) rt :
  app (foldl perform rt effects) = app rt.
Proof.
  revert rt. induction effects as [|e effects IH]; intros rt; [done|].
  simpl. rewrite IH. by destruct e.
Qed.

Lemma app_fire rt timer : app (fire rt timer) = app rt.
Proof.
  unfold fire. pose proof (call_state timer.2 (app rt)) as Hcall.
  destruct (call timer.2 (app rt)) as [st effects]. simpl in Hcall.
  by rewrite app_foldl_perform.
Qed.

Lemma app_foldl_fire (due : list (Z * Callback)) rt :
  app (foldl fire rt due) = app rt.
Proof.
  revert rt. induction due as [|timer due IH]; intros rt; [done|].
  simpl. by rewrite IH, app_fire.
Qed.

Lemma app_advance t rt : app (advance t rt) = app rt.
Proof. unfold advance. simpl. by rewrite app_foldl_fire. Qed.

Lemma app_dispatch ev rt :
  app (dispatch ev rt) = (handle ev (modal rt) (app rt)).1.
Proof.
  unfold dispatch. destruct (handle ev (modal rt) (app rt)) as [st effects].
  by rewrite app_foldl_perform.
Qed.

Lemma app_deliver rt (timed : Z * Event) :
  app (deliver rt timed)
  = (handle timed.2 (modal (advance timed.1 rt)) (app rt)).1.
Proof. unfold deliver. by rewrite app_dispatch, app_advance. Qed.

(** What an event does to the cache: nothing, an insertion followed by the
    capacity check, or a new capacity followed by the capacity check. *)
Lemma handle_cache_cases ev shown st :
  let st' := (handle ev shown st).1 in
  (leaves_cache ev ∧ orders st' = orders st ∧ ordersArray st' = ordersArray st ∧
   maxOrders st' = maxOrders st) ∨
  (∃ o, (ev = WsMessage (MsgOrderItem o) ∨ ev = WsMessage (MsgOrderUpdated o)) ∧
        st' = enforceMaxOrdersLimit (inserted o st)) ∨
  (∃ value, ev = ChangeMaxOrders value ∧
            st' = enforceMaxOrdersLimit
                    (with_maxOrders (or_else (parseInt value) 500) st)).
Proof.
  destruct ev as [|[order| | |order|]| | | | | | | | | | | | | | | |]; simpl;
    try (by left); try (left; unfold goToPage; by case_match).
  - right; left. exists order. auto.
  - right; left. exists order. auto.
  - left. unfold deselectAllOrders. by case_match.
  - left. unfold toggleOrderSelection. by case_match.
  - right; right. by exists value.
  - left. destruct shown as [callback|]; [|done]. by rewrite call_state.
Qed.

Lemma handle_cache_ok ev shown st :
  cache_ok st → cache_ok (handle ev shown st).1.
Proof.
  intros Hok.
  destruct (handle_cache_cases ev shown st)
    as [(_ & Ho & Ha & _)|[(o & _ & Heq)|(value & _ & Heq)]].
  - unfold cache_ok. rewrite Ho, Ha. exact Hok.
  - rewrite Heq. apply enforce_ordering, inserted_ok, Hok.
  - rewrite Heq. by apply enforce_ordering.
Qed.

Lemma elem_of_slice {A} (arr : list A) (a b : Z) (x : A) :
  x ∈ JS.slice arr a b → x ∈ arr.
Proof.
  unfold JS.slice. intros Hx.
  eapply elem_of_sublist; [exact Hx|].
  etrans; [apply sublist_take|apply sublist_drop].
Qed.

Lemma map_get_elem (k : string) o (m : list (string * Order)) :
  NoDup (JS.map_keys m) → (k, o) ∈ m → JS.map_get k m = Some o.
Proof.
  unfold JS.map_keys. induction m as [|[k0 o0] m IH]; [by intros _ ?%elem_of_nil|].
  rewrite fmap_cons, NoDup_cons. simpl. intros [Hk0 Hnd] [[= -> ->]|Hin]%elem_of_cons.
  - by rewrite decide_True.
  - rewrite decide_False; [by apply IH|].
    intros ->. apply Hk0. by apply (list_elem_of_fmap_2 fst) in Hin.
Qed.

(** Every order of the ordering is found in the cache under its identifier. *)
Lemma ordering_lookup st o :
  cache_ok st → o ∈ ordersArray st →
  JS.map_get (order_id o) (orders st) = Some o.
Proof.
  intros [[Hnd Hid] ->]. unfold sorted_values. rewrite sort_perm.
  unfold JS.map_values. intros ([k o'] & -> & Hin)%list_elem_of_fmap.
  rewrite Forall_forall in Hid. pose proof (Hid _ Hin) as Hk. simpl in *. subst k.
  by apply map_get_elem.
Qed.

Lemma rendered_lookup st o :
  cache_ok st → o ∈ renderCurrentPage st →
  JS.map_get (order_id o) (orders st) = Some o ∧ cached st (order_id o).
Proof.
  intros Hok Hin%elem_of_slice.
  pose proof (ordering_lookup st o Hok Hin) as Hget. split; [done|].
  unfold cached. destruct (decide (order_id o ∈ JS.map_keys (orders st))) as [|Hn]; [done|].
  apply map_get_None in Hn. congruence.
Qed.

(** A row on display belongs to a cached order. *)
Lemma displayed_cached st orderId :
  cache_ok st → displayed st orderId → cached st orderId.
Proof.
  intros Hok (o & -> & Hin)%list_elem_of_fmap. by apply rendered_lookup.
Qed.

Lemma selection_kept rt (events : list (Z * Event)) :
  cache_ok (app rt) → selection_ok (app rt) → permitted_run rt events →
  cache_ok (app (run rt events)) ∧ selection_ok (app (run rt events)).
Proof.
  revert rt. induction events as [|timed events IH]; intros rt Hok Hsel Hrun; [done|].
  destruct Hrun as [Hev Hrun]. simpl. rewrite app_advance in Hev.
  apply IH; [| |done]; rewrite app_deliver.
  - by apply handle_cache_ok.
  - apply handle_selection; [done|].
    intros orderId Heq. rewrite Heq in Hev. by apply displayed_cached.
Qed.

Lemma permitted_run_take rt (events : list (Z * Event)) (n : nat) :
  permitted_run rt events → permitted_run rt (take n events).
Proof.
  revert rt n. induction events as [|timed events IH]; intros rt [|n] Hrun; [done..|].
  destruct Hrun as [Hev Hrun]. split; [done|]. by apply IH.
Qed.

(** Claim C3.  From the start of the client, along every run of events
    (frames, capacity changes, page and page size changes, selection clicks,
    dialogs, timers) in which the click listener of a row runs for a row on
    display, every selected identifier is a key of the cache after each
    event, that is after every prefix of the run.  And whatever the next
    event, an identifier it removes from the cache is out of the selection
    when that event has been handled. *)
Theorem selection_within_cache (events : list (Z * Event)) :
  permitted_run boot events →
  ∀ n : nat,
    let rt' := run boot (take n events) in
    selection_ok (app rt') ∧
    (∀ timed orderId,
       cached (app rt') orderId →
       ¬ cached (app (deliver rt' timed)) orderId →
       orderId ∉ selectedOrders (app (deliver rt' timed))).
Proof.
  intros Hrun n. simpl. split.
  - apply selection_kept; [| |by apply permitted_run_take].
    + split; [split; [apply NoDup_nil_2|apply Forall_nil_2]|done].
    + by intros orderId ?%elem_of_nil.
  - intros timed orderId. rewrite app_deliver. apply handle_deselects.
Qed.
End Selection.

(** ** Pagination *)

Section Pagination.
Implicit Types (st : App).

Lemma ceil_div_bounds (a b : Z) :
  0 ≤ a → 0 < b →
  0 ≤ ceil_div a b ∧ a ≤ ceil_div a b * b ∧ (ceil_div a b - 1) * b < a + b ∧
  (0 < a → (ceil_div a b - 1) * b < a).
Proof.
  intros Ha Hb. unfold ceil_div.
  pose proof (Z.div_mod (- a) b) as Hdm.
  pose proof (Z.mod_pos_bound (- a) b Hb) as Hmod.
  split_and!; [nia..|intros; nia].
Qed.

Lemma slice_nonnegative {A} (arr : list A) (a b : Z) :
  0 ≤ a ≤ b →
  JS.slice arr a b = take (Z.to_nat (b - a)) (drop (Z.to_nat a) arr).
Proof.
  intros Hab. unfold JS.slice, JS.relative_index.
  rewrite !(proj2 (Z.ltb_ge _ 0)) by lia.
  destruct (Z.le_gt_cases a (Z.of_nat (length arr))) as [Hle|Hgt].
  - rewrite (Z.min_l a) by done.
    destruct (Z.le_gt_cases b (Z.of_nat (length arr))) as [Hb|Hb].
    + by rewrite Z.min_l.
    + rewrite Z.min_r by lia.
      rewrite !take_ge; [done|rewrite length_drop; lia..].
  - rewrite !drop_ge by lia. by rewrite !take_nil.
Qed.

(** Cutting a list into [n] chunks of [p] and gluing them gives it back. *)
Lemma concat_chunks {A} (p n : nat) (arr : list A) :
  (length arr ≤ n * p)%nat →
  concat ((λ k : nat, take p (drop (k * p) arr)) <$> seq 0 n) = arr.
Proof.
  revert arr. induction n as [|n IH]; intros arr Hlen.
  - simpl in *. destruct arr; [done|simpl in *; lia].
  - rewrite <-cons_seq, fmap_cons, concat_cons. simpl drop.
    rewrite <-fmap_S_seq, <-list_fmap_compose.
    rewrite (list_fmap_ext _ (λ k : nat, take p (drop (k * p) (drop p arr))) (seq 0 n)).
    + rewrite IH by (rewrite length_drop; simpl in Hlen; lia). apply take_drop.
    + intros i k _. simpl. by rewrite drop_drop.
Qed.

Lemma page_items_chunk st (k : nat) :
  0 < pageSize st →
  page_items st (Z.of_nat k + 1) =
  take (Z.to_nat (pageSize st)) (drop (k * Z.to_nat (pageSize st)) (ordersArray st)).
Proof.
  intros Hp. unfold page_items, renderCurrentPage. simpl.
  rewrite slice_nonnegative by nia. do 2 f_equal; nia.
Qed.

Lemma all_pages_chunks st :
  0 < pageSize st →
  all_pages st =
  (λ k : nat, take (Z.to_nat (pageSize st))
                (drop (k * Z.to_nat (pageSize st)) (ordersArray st)))
  <$> seq 0 (Z.to_nat (getTotalPages st)).
Proof.
  intros Hp. unfold all_pages, seqZ. rewrite <-list_fmap_compose.
  apply list_fmap_ext. intros i k _. simpl. by apply page_items_chunk.
Qed.

Lemma concat_all_pages st :
  0 < pageSize st → concat (all_pages st) = ordersArray st.
Proof.
  intros Hp. rewrite all_pages_chunks by done. apply concat_chunks.
  destruct (ceil_div_bounds (Z.of_nat (length (ordersArray st))) (pageSize st))
    as (Hn & Hle & _); [lia..|].
  fold (getTotalPages st) in Hn, Hle. nia.
Qed.

(** Claim C5.  For a positive page size every page has at most
    [pageSize] rows, and the pages 1 to [getTotalPages()] put one after
    the other are exactly the newest-first ordering of the cache: sorted,
    each cached identifier once, none missing, whether or not the page
    size divides the number of orders.  With page size 25 and 57 orders
    there are 3 pages and page 3 has 7 rows. *)
Theorem pages_partition_ordering st :
  cache_ok st → 0 < pageSize st →
  Forall (λ page, Z.of_nat (length page) ≤ pageSize st) (all_pages st) ∧
  concat (all_pages st) = sorted_values (orders st) ∧
  descending (concat (all_pages st)) ∧
  NoDup (order_id <$> concat (all_pages st)) ∧
  order_id <$> concat (all_pages st) ≡ₚ JS.map_keys (orders st) ∧
  (length (ordersArray st) = 57%nat → pageSize st = 25 →
   getTotalPages st = 3 ∧ length (page_items st 3) = 7%nat).
Proof.
  intros Hok Hp. rewrite concat_all_pages by done.
  pose proof (cache_ok_ids st Hok) as Hnd. destruct Hok as [Hm Harr].
  split_and!.
  - rewrite all_pages_chunks by done. apply Forall_fmap, Forall_forall.
    intros k _. simpl. rewrite length_take. lia.
  - done.
  - rewrite Harr. apply sort_descending.
  - done.
  - rewrite Harr. unfold sorted_values. by rewrite sort_perm, map_ok_ids.
  - intros Hlen Hsize.
    assert (getTotalPages st = 3) as Hpages
      by (unfold getTotalPages; rewrite Hlen, Hsize; reflexivity).
    split; [done|].
    change 3 with (Z.of_nat 2 + 1). rewrite page_items_chunk by done.
    rewrite length_take, length_drop, Hlen, Hsize. reflexivity.
Qed.

(** Where the page number does stay in range. *)
Lemma goToPage_page_ok page st : page_ok st → page_ok (goToPage page st).
Proof.
  unfold goToPage, page_ok.
  destruct (Z.ltb_spec page 1); simpl; [done|].
  destruct (Z.ltb_spec (getTotalPages st) page); simpl; [done|].
  intros _. unfold getTotalPages. simpl. fold (getTotalPages st). lia.
Qed.

Lemma onPageSizeChange_page_ok n st : page_ok (onPageSizeChange n st).
Proof. unfold page_ok. simpl. lia. Qed.

(** Claim C4 does not hold for capacity changes.  With 57 orders, page
    size 25 and the operator on page 3, entering 10 as capacity leaves 10
    orders, hence one page, while [currentPage] remains 3: the page on
    display is empty and the page number is outside [1, totalPages]. *)
Theorem capacity_change_keeps_stale_page :
  cache_ok on_last_page ∧ page_ok on_last_page ∧
  currentPage on_last_page = 3 ∧ cache_size on_last_page = 57 ∧
  currentPage shrunk_on_last_page = 3 ∧
  cache_size shrunk_on_last_page = 10 ∧
  getTotalPages shrunk_on_last_page = 1 ∧
  renderCurrentPage shrunk_on_last_page = [] ∧
  ¬ page_ok shrunk_on_last_page.
Proof.
  assert (currentPage on_last_page = 3) as Hpage0 by (vm_compute; reflexivity).
  assert (getTotalPages on_last_page = 3) as Htotal0 by (vm_compute; reflexivity).
  assert (currentPage shrunk_on_last_page = 3) as Hpage by (vm_compute; reflexivity).
  assert (getTotalPages shrunk_on_last_page = 1) as Htotal by (vm_compute; reflexivity).
  split_and!.
  - apply (bool_decide_unpack _). vm_compute. exact I.
  - unfold page_ok. rewrite Hpage0, Htotal0. lia.
  - exact Hpage0.
  - vm_compute; reflexivity.
  - exact Hpage.
  - vm_compute; reflexivity.
  - exact Htotal.
  - vm_compute; reflexivity.
  - unfold page_ok. rewrite Hpage, Htotal. lia.
Qed.
End Pagination.

(** ** Command handlers *)

Section Commands.
Implicit Types (st : App) (orderId : string).

Lemma sent_app (e1 e2 : list Effect) : sent (e1 ++ e2) = sent e1 ++ sent e2.
Proof. apply omap_app. Qed.

Lemma sent_processOrder orderId st :
  isConnected st = true → sent (processOrder orderId st) = [process_order orderId].
Proof. unfold processOrder. by intros ->. Qed.

Lemma sent_performCloseOrder orderId st :
  isConnected st = true → sent (performCloseOrder orderId st) = [close_order orderId].
Proof. unfold performCloseOrder. by intros ->. Qed.

Lemma sent_bind (f : string → list Effect) (c : string → Command) (ids : list string) :
  (∀ orderId, sent (f orderId) = [c orderId]) →
  sent (ids ≫= f) = c <$> ids.
Proof.
  intros Hf. induction ids as [|orderId ids IH]; [done|].
  rewrite bind_cons, sent_app, Hf, IH. done.
Qed.

Lemma sent_confirmed_modal (message : string) (onConfirm : Callback) st :
  sent (and_confirmed [ShowConfirmationModal message onConfirm] st)
  = sent (call onConfirm st).2.
Proof.
  unfold and_confirmed. rewrite bind_cons. simpl mbind.
  by rewrite app_nil_r, sent_app.
Qed.

(** [closeOrder] in a connected client whose order is being processed. *)
Lemma closeOrder_processing orderId st order :
  isConnected st = true →
  JS.map_get orderId (orders st) = Some order →
  status order = "Processing" →
  ∃ message,
    closeOrder orderId st = [ShowConfirmationModal message (PerformCloseOrder orderId)].
Proof.
  intros Hc Hget Hst. unfold closeOrder. rewrite Hc, Hget. simpl.
  rewrite bool_decide_eq_false_2 by (by intros ?). by eexists.
Qed.

(** [closeOrder] in every other case: one error, nothing else. *)
Lemma closeOrder_rejected orderId st :
  isConnected st = false ∨
  JS.map_get orderId (orders st) = None ∨
  (∃ order, JS.map_get orderId (orders st) = Some order ∧ status order ≠ "Processing") →
  ∃ message, closeOrder orderId st = [ShowStatus message "error"].
Proof.
  unfold closeOrder. destruct (isConnected st); simpl; [|by eexists].
  intros [?|[->|(order & -> & Hst)]]; [done|by eexists|].
  rewrite bool_decide_eq_true_2 by done. by eexists.
Qed.

(** Claim C6.  A [close_order] command that results from [closeOrder],
    the operator confirming the dialog in whatever state the client is by
    then, is for that identifier, and its order has status Processing when
    [closeOrder] is called.  When the order is absent from the cache or has
    another status, [closeOrder] reports one error and nothing is sent.  For
    a client that is and stays connected and an order in Processing the
    confirmed call sends exactly that command. *)
Theorem closeOrder_requires_processing orderId st (later : App) :
  (∀ command,
     command ∈ sent (and_confirmed (closeOrder orderId st) later) →
     command = close_order orderId ∧
     ∃ order, JS.map_get orderId (orders st) = Some order ∧
              status order = "Processing") ∧
  (JS.map_get orderId (orders st) = None ∨
   (∃ order, JS.map_get orderId (orders st) = Some order ∧
             status order ≠ "Processing") →
   (∃ message, closeOrder orderId st = [ShowStatus message "error"]) ∧
   sent (and_confirmed (closeOrder orderId st) later) = []) ∧
  (isConnected st = true → isConnected later = true →
   ∀ order, JS.map_get orderId (orders st) = Some order →
            status order = "Processing" →
            sent (and_confirmed (closeOrder orderId st) later) = [close_order orderId]).
Proof.
  assert (∀ command,
            command ∈ sent (performCloseOrder orderId later) →
            command = close_order orderId) as Hperform.
  { intros command. unfold performCloseOrder.
    destruct (isConnected later); simpl.
    - by intros ->%list_elem_of_singleton.
    - by intros ?%elem_of_nil. }
  split_and!.
  - destruct (isConnected st) eqn:Hc.
    + destruct (JS.map_get orderId (orders st)) as [order|] eqn:Hget.
      * destruct (decide (status order = "Processing")) as [Hst|Hst].
        -- destruct (closeOrder_processing orderId st order Hc Hget Hst) as [m ->].
           rewrite sent_confirmed_modal. simpl call. simpl snd.
           intros command ->%Hperform. eauto.
        -- destruct (closeOrder_rejected orderId st) as [m ->]; [eauto|].
           by intros command ?%elem_of_nil.
      * destruct (closeOrder_rejected orderId st) as [m ->]; [eauto|].
        by intros command ?%elem_of_nil.
    + destruct (closeOrder_rejected orderId st) as [m ->]; [eauto|].
      by intros command ?%elem_of_nil.
  - intros H. destruct (closeOrder_rejected orderId st) as [m Hm]; [eauto|].
    rewrite Hm. eauto.
  - intros Hc Hlater order Hget Hst.
    destruct (closeOrder_processing orderId st order Hc Hget Hst) as [m ->].
    rewrite sent_confirmed_modal. simpl call. simpl snd.
    by rewrite sent_performCloseOrder.
Qed.

(** [processSelectedOrders] sends for every selected identifier, whatever
    the status of its order. *)
Lemma sent_processSelectedOrders st :
  isConnected st = true →
  sent (processSelectedOrders st) = process_order <$> selectedOrders st.
Proof.
  intros Hc. unfold processSelectedOrders. rewrite Hc. simpl.
  unfold JS.set_size. destruct (selectedOrders st) as [|k s] eqn:Hs; [done|].
  rewrite (proj2 (Z.eqb_neq _ _)) by (simpl; lia).
  rewrite sent_app, (sent_bind _ process_order); [by rewrite app_nil_r|].
  intros. by apply sent_processOrder.
Qed.

(** [closeSelectedOrders], once confirmed, sends for the selected orders
    that are being processed when the button is pressed, in selection
    order, and for no other, whatever has changed by the confirmation. *)
Lemma sent_closeSelectedOrders st (later : App) :
  isConnected st = true → isConnected later = true →
  sent (and_confirmed (closeSelectedOrders st) later)
  = close_order <$> List.filter (is_processing st) (selectedOrders st).
Proof.
  intros Hc Hlater. unfold closeSelectedOrders. rewrite Hc. simpl.
  unfold JS.set_size.
  destruct (Z.eqb_spec (Z.of_nat (length (selectedOrders st))) 0) as [Hz|Hz].
  { destruct (selectedOrders st); [done|simpl in Hz; lia]. }
  destruct (Z.eqb_spec
    (Z.of_nat (length (List.filter (is_processing st) (selectedOrders st)))) 0)
    as [Hn|Hn].
  { destruct (List.filter (is_processing st) (selectedOrders st)); [done|simpl in Hn; lia]. }
  rewrite sent_confirmed_modal. simpl call. simpl snd.
  unfold performCloseSelectedOrders.
  rewrite sent_app, (sent_bind _ close_order); [by rewrite app_nil_r|].
  intros. by apply sent_performCloseOrder.
Qed.

(** Claim C7 does not hold for processing.  With [A] pending, [B]
    processing and [C] done, all three selected, [processSelectedOrders]
    sends [process_order] for all three, while [closeSelectedOrders] once
    confirmed sends [close_order] for [B] alone. *)
Theorem processSelected_ignores_status :
  isConnected selected_ABC = true ∧
  selectedOrders selected_ABC = ["A"; "B"; "C"] ∧
  status <$> JS.map_values (orders selected_ABC) = ["Pending"; "Processing"; "Done"] ∧
  sent (processSelectedOrders selected_ABC)
    = [process_order "A"; process_order "B"; process_order "C"] ∧
  sent (and_confirmed (closeSelectedOrders selected_ABC) selected_ABC)
    = [close_order "B"].
Proof. split_and!; vm_compute; reflexivity. Qed.
End Commands.

(** ** Capacity changes *)

Section Capacity.
Implicit Types (st : App) (value : string).

Example parseInt_examples :
  parseInt "250" = Int 250 ∧ parseInt "  42" = Int 42 ∧ parseInt "+7" = Int 7 ∧
  parseInt "0x1F" = Int 31 ∧ parseInt "12abc" = Int 12 ∧ parseInt "3.7" = Int 3 ∧
  parseInt "0" = Int 0 ∧ parseInt "-5" = Int (-5) ∧
  parseInt "abc" = NaN ∧ parseInt EmptyString = NaN ∧ parseInt "-" = NaN.
Proof. split_and!; reflexivity. Qed.

Lemma updateMaxOrdersLimit_eq value st :
  updateMaxOrdersLimit value st
  = enforceMaxOrdersLimit (with_maxOrders (or_else (parseInt value) 500) st).
Proof. reflexivity. Qed.

Lemma set_capacity (c : Z) st :
  cache_ok st → 0 ≤ c →
  let st' := enforceMaxOrdersLimit (with_maxOrders c st) in
  maxOrders st' = c ∧
  cache_size st' = Z.min (cache_size st) c ∧
  ordersArray st' = take (Z.to_nat c) (ordersArray st).
Proof.
  intros Hok Hc. simpl.
  assert (cache_ok (with_maxOrders c st)) as Hok' by done.
  destruct (enforce_fields (with_maxOrders c st)) as (_ & _ & _ & _ & _ & ->).
  split_and!; [done| |].
  - by rewrite enforce_size.
  - by destruct (enforce_ordering _ Hok') as [-> _].
Qed.

(** Claim C8, as amended.  [updateMaxOrdersLimit] sets the capacity to
    [parseInt] of the input when that is a positive integer (the leading
    integer of the text) and to 500 when [parseInt] gives [NaN] or zero;
    in both cases it enforces the new capacity at once, keeping the
    newest orders up to that number. *)
Theorem updateMaxOrdersLimit_capacity value st :
  cache_ok st →
  let st' := updateMaxOrdersLimit value st in
  (∀ n, parseInt value = Int n → 0 < n →
     maxOrders st' = n ∧
     cache_size st' = Z.min (cache_size st) n ∧
     ordersArray st' = take (Z.to_nat n) (ordersArray st)) ∧
  (parseInt value = NaN ∨ parseInt value = Int 0 →
     maxOrders st' = 500 ∧
     cache_size st' = Z.min (cache_size st) 500 ∧
     ordersArray st' = take 500 (ordersArray st)).
Proof.
  intros Hok. simpl. rewrite updateMaxOrdersLimit_eq. split.
  - intros n -> Hn. simpl. rewrite (proj2 (Z.eqb_neq n 0)) by lia.
    apply set_capacity; [done|lia].
  - intros [-> | ->]; simpl; by apply (set_capacity 500).
Qed.

(** Claim C8 as stated fails: the text 3.7 is not a positive integer, and
    the capacity becomes 3, not 500. *)
Lemma capacity_from_decimal_text :
  denotes_positive_integer "3.7" = false ∧
  maxOrders (updateMaxOrdersLimit "3.7" constructor) = 3 ∧
  maxOrders (updateMaxOrdersLimit "3.7" constructor) ≠ 500.
Proof. split_and!; [reflexivity..|discriminate]. Qed.

(** A negative number is taken as it is, and empties the cache. *)
Example negative_capacity :
  maxOrders (updateMaxOrdersLimit "-5" connected_ABC) = -5 ∧
  orders (updateMaxOrdersLimit "-5" connected_ABC) = [] ∧
  orders (receive (updateMaxOrdersLimit "-5" connected_ABC) (MsgOrderItem order_A)) = [].
Proof. split_and!; vm_compute; reflexivity. Qed.
End Capacity.

(** ** Life cycle of a cached order *)

Section Lifecycle.
Implicit Types (st : App) (ev : Event).

Lemma map_get_set (k k' : string) (o : Order) (m : list (string * Order)) :
  JS.map_get k' (JS.map_set k o m)
  = if decide (k = k') then Some o else JS.map_get k' m.
Proof.
  induction m as [|[k0 o0] m IH]; simpl.
  - by case_decide.
  - destruct (decide (k0 = k)) as [->|Hne]; simpl.
    + by case_decide.
    + rewrite IH. repeat case_decide; congruence.
Qed.

Lemma map_get_kept (gone : list string) (k : string) (m : list (string * Order)) :
  k ∉ gone → JS.map_get k (filter (λ kv, kv.1 ∉ gone) m) = JS.map_get k m.
Proof.
  intros Hk. induction m as [|[k0 o0] m IH]; [done|].
  rewrite filter_cons. simpl. destruct (decide (k0 ∉ gone)) as [H0|H0]; simpl.
  - by rewrite IH.
  - rewrite IH. case_decide; [by subst|done].
Qed.

(** A key that disappears in [enforceMaxOrdersLimit] was past the
    capacity in the ordering. *)
Lemma enforce_removes st orderId :
  cached st orderId → ¬ cached (enforceMaxOrdersLimit st) orderId →
  maxOrders st < Z.of_nat (length (ordersArray st)) ∧
  orderId ∈ order_id <$> drop (Z.to_nat (maxOrders st)) (ordersArray st).
Proof.
  intros Hin Hout.
  assert (orderId ∈ order_id <$> drop (Z.to_nat (maxOrders st)) (ordersArray st)) as Hgone.
  { destruct (decide (orderId ∈ order_id <$>
      drop (Z.to_nat (maxOrders st)) (ordersArray st))) as [|Hn]; [done|].
    destruct Hout. unfold cached in *.
    destruct (enforce_fields st) as (-> & _). unfold JS.map_keys in *.
    apply list_elem_of_fmap in Hin as (kv & -> & Hin).
    apply list_elem_of_fmap_2, list_elem_of_filter. by split. }
  split; [|done].
  destruct (Z.lt_ge_cases (maxOrders st) (Z.of_nat (length (ordersArray st))));
    [done|].
  rewrite drop_ge in Hgone by lia. by apply elem_of_nil in Hgone.
Qed.

(** Claim C10, as amended.  Whatever the event: an identifier enters the
    cache only with an order_item or an order_updated frame that carries
    it, and the cached record is then the frame's order; either frame for
    an identifier already cached replaces the record in place, keeping
    the keys and their order and every other record, when the cache is
    within its capacity; and an identifier leaves the cache only when the
    event is an order frame or a change of the capacity, in the call of
    [enforceMaxOrdersLimit] that ends its handler: on the state the handler
    has reached by then (the frame's order inserted, or the new capacity
    set) the ordering is longer than the capacity and the order lies past
    the capacity in it.  No other event, and no frame of another type,
    removes a record. *)
Theorem cache_lifecycle st ev (shown : option Callback) :
  let st' := (handle ev shown st).1 in
  (∀ orderId,
     ¬ cached st orderId → cached st' orderId →
     ∃ order,
       order_id order = orderId ∧
       (ev = WsMessage (MsgOrderItem order) ∨ ev = WsMessage (MsgOrderUpdated order)) ∧
       JS.map_get orderId (orders st') = Some order) ∧
  (∀ order,
     ev = WsMessage (MsgOrderItem order) ∨ ev = WsMessage (MsgOrderUpdated order) →
     cached st (order_id order) → cache_size st ≤ maxOrders st →
     JS.map_keys (orders st') = JS.map_keys (orders st) ∧
     JS.map_get (order_id order) (orders st') = Some order ∧
     ∀ other, other ≠ order_id order →
              JS.map_get other (orders st') = JS.map_get other (orders st)) ∧
  (∀ orderId,
     cached st orderId → ¬ cached st' orderId →
     ∃ before,
       ((∃ order,
           (ev = WsMessage (MsgOrderItem order) ∨ ev = WsMessage (MsgOrderUpdated order)) ∧
           before = inserted order st) ∨
        (∃ value,
           ev = ChangeMaxOrders value ∧
           before = with_maxOrders (or_else (parseInt value) 500) st)) ∧
       st' = enforceMaxOrdersLimit before ∧
       cached before orderId ∧
       maxOrders before < Z.of_nat (length (ordersArray before)) ∧
       orderId ∈ order_id <$> drop (Z.to_nat (maxOrders before)) (ordersArray before)) ∧
  (leaves_cache ev → orders st' = orders st).
Proof.
  simpl. split_and!.
  - intros orderId Hout Hin.
    assert (∀ order, (handle ev shown st).1 = enforceMaxOrdersLimit (inserted order st) →
              JS.map_get orderId (orders (handle ev shown st).1) = Some order
              ∧ order_id order = orderId) as Hnew.
    { intros order Heq. rewrite Heq in *. clear Heq.
      unfold cached in Hin. destruct (enforce_fields (inserted order st)) as (Ho & _).
      rewrite Ho in Hin. rewrite Ho. clear Ho.
      generalize dependent
        (order_id <$> drop (Z.to_nat (maxOrders (inserted order st)))
                        (ordersArray (inserted order st))).
      intros gone Hin.
      assert ((orderId ∉ gone) ∧ orderId ∈ JS.map_keys (orders (inserted order st)))
        as [Hkeep Hins].
      { unfold JS.map_keys in *.
        apply list_elem_of_fmap in Hin as (kv & -> & [? ?]%list_elem_of_filter).
        split; [done|]. by apply list_elem_of_fmap_2. }
      rewrite map_get_kept by done.
      simpl in *. rewrite map_keys_set in Hins. rewrite map_get_set.
      destruct (decide (order_id order ∈ JS.map_keys (orders st))) as [Hold|Hnew].
      - by destruct Hout.
      - apply elem_of_app in Hins as [?|Heq%list_elem_of_singleton]; [by destruct Hout|].
        by rewrite decide_True. }
    destruct ev as [|[order| | |order|]| | | | | | | | | | | | | | | |]; simpl in *;
      try (by destruct Hout);
      try (by destruct Hout;
           match type of Hin with cached (goToPage ?p st) _ =>
             unfold cached in *; destruct (goToPage_untouched p st) as [<- _] end).
    + destruct (Hnew order eq_refl) as [? ?]. exists order. auto.
    + destruct (Hnew order eq_refl) as [? ?]. exists order. auto.
    + destruct Hout. unfold deselectAllOrders in Hin. by case_match.
    + destruct Hout. unfold toggleOrderSelection in Hin. by case_match.
    + destruct Hout. unfold cached in *.
      destruct (enforce_fields (with_maxOrders (or_else (parseInt value) 500) st))
        as (Ho & _). rewrite updateMaxOrdersLimit_eq, Ho in Hin. unfold JS.map_keys in *.
      apply list_elem_of_fmap in Hin as (kv & -> & [? ?]%list_elem_of_filter).
      by apply list_elem_of_fmap_2.
    + destruct Hout. destruct shown; [|done]. by rewrite call_state in Hin.
  - intros order Hev Hin Hsize.
    assert ((handle ev shown st).1 = inserted order st) as ->.
    { assert ((handle ev shown st).1 = enforceMaxOrdersLimit (inserted order st)) as ->
        by (by destruct Hev as [-> | ->]).
      unfold enforceMaxOrdersLimit.
      destruct (Z.ltb_spec (maxOrders (inserted order st))
                  (Z.of_nat (length (ordersArray (inserted order st))))) as [Hlt|]; [|done].
      simpl in Hlt. unfold sorted_values, JS.map_values in Hlt.
      rewrite length_sort, length_fmap, length_map_set in Hlt.
      rewrite decide_True in Hlt by done.
      unfold cache_size, JS.map_size in Hsize. lia. }
    simpl. rewrite map_keys_set, decide_True by done. split_and!; [done| |].
    + by rewrite map_get_set, decide_True.
    + intros other Hne. by rewrite map_get_set, decide_False.
  - intros orderId Hin Hout.
    destruct (handle_cache_cases ev shown st)
      as [(_ & Ho & _)|[(o & Hev & Heq)|(value & Hev & Heq)]].
    + destruct Hout. unfold cached. by rewrite Ho.
    + rewrite Heq in *. exists (inserted o st).
      apply (cached_inserted o) in Hin.
      destruct (enforce_removes _ _ Hin Hout).
      split_and!; [left; by exists o|done..].
    + rewrite Heq in *.
      exists (with_maxOrders (or_else (parseInt value) 500) st).
      destruct (enforce_removes
                  (with_maxOrders (or_else (parseInt value) 500) st) orderId Hin Hout).
      split_and!; [right; by exists value|done..].
  - intros Hev.
    destruct (handle_cache_cases ev shown st)
      as [(_ & Ho & _)|[(o & [-> | ->] & _)|(value & -> & _)]]; done.
Qed.

(** Claim C10 as stated fails: an order_updated frame for an identifier
    that no order_item frame ever carried creates the record. *)
Lemma order_updated_creates :
  let st := receive constructor (MsgOrderUpdated order_B) in
  orders constructor = [] ∧
  JS.map_keys (orders st) = ["B"] ∧
  JS.map_get "B" (orders st) = Some order_B.
Proof. split_and!; reflexivity. Qed.
End Lifecycle.

(** ** Reconnection *)

Section Reconnection.
Implicit Types (st : App) (rt : Runtime) (ev : Event).

Lemma quiet_bind (f : string → list Effect) (ids : list string) :
  (∀ orderId, Forall quiet (f orderId)) → Forall quiet (ids ≫= f).
Proof.
  intros Hf. induction ids as [|orderId ids IH]; [constructor|].
  rewrite bind_cons. by apply Forall_app.
Qed.

Lemma quiet_processOrder orderId st : Forall quiet (processOrder orderId st).
Proof. unfold processOrder. case_match; by repeat constructor. Qed.

Lemma quiet_performCloseOrder orderId st : Forall quiet (performCloseOrder orderId st).
Proof. unfold performCloseOrder. case_match; by repeat constructor. Qed.

Lemma quiet_closeOrder orderId st : Forall quiet (closeOrder orderId st).
Proof. unfold closeOrder. repeat case_match; by repeat constructor. Qed.

Lemma quiet_processSelectedOrders st : Forall quiet (processSelectedOrders st).
Proof.
  unfold processSelectedOrders. repeat case_match; try by repeat constructor.
  apply Forall_app. split; [|by repeat constructor].
  apply quiet_bind. intros. apply quiet_processOrder.
Qed.

Lemma quiet_closeSelectedOrders st : Forall quiet (closeSelectedOrders st).
Proof.
  unfold closeSelectedOrders.
  destruct (negb (isConnected st)); [by repeat constructor|].
  destruct (JS.set_size (selectedOrders st) =? 0); [by repeat constructor|].
  destruct (Z.of_nat (length (List.filter (is_processing st) (selectedOrders st))) =? 0);
    by repeat constructor.
Qed.

Lemma quiet_call (callback : Callback) st :
  callback ≠ Reconnect → Forall quiet (call callback st).2.
Proof.
  destruct callback as [orderId|ids|]; [| |done]; intros _; simpl.
  - apply quiet_performCloseOrder.
  - unfold performCloseSelectedOrders. apply Forall_app. split.
    + apply quiet_bind. intros. apply quiet_performCloseOrder.
    + by repeat constructor.
Qed.

(** Only [WsClose] arms a timer, and no listener opens a connection. *)
Lemma handle_quiet ev shown st :
  ev ≠ WsClose → shown ≠ Some Reconnect →
  Forall quiet (handle ev shown st).2 ∧
  isConnected (handle ev shown st).1 = isConnected st || is_open ev.
Proof.
  intros Hev Hshown.
  destruct ev as [|[order| | |order|]| | | | | | | | | | | | | | | |]; simpl;
    rewrite ?orb_false_r, ?orb_true_r;
    try (split; [by repeat constructor|]);
    try done; try (unfold goToPage; by case_match).
  - destruct (enforce_fields (inserted order st)) as (_ & _ & Hc & _). exact Hc.
  - destruct (enforce_fields (inserted order st)) as (_ & _ & Hc & _). exact Hc.
  - split; [apply quiet_processOrder|done].
  - split; [apply quiet_closeOrder|done].
  - split; [apply quiet_processSelectedOrders|done].
  - split; [apply quiet_closeSelectedOrders|done].
  - unfold deselectAllOrders. case_match; by repeat constructor.
  - unfold toggleOrderSelection. by case_match.
  - destruct (enforce_fields (with_maxOrders (or_else (parseInt value) 500) st))
      as (_ & _ & Hc & _). exact Hc.
  - destruct shown as [callback|]; [|by repeat constructor].
    rewrite call_state. split; [|done]. apply quiet_call. congruence.
Qed.

Lemma attempts_perform rt (e : Effect) :
  connection_attempts (perform rt e)
  = connection_attempts rt ++ match e with NewWebSocket => [clock rt] | _ => [] end.
Proof.
  unfold connection_attempts.
  assert (log (perform rt e) = log rt ++ [(clock rt, e)]) as -> by (by destruct e).
  rewrite omap_app. by destruct e.
Qed.

Lemma perform_quiet (effects : list Effect) rt :
  Forall quiet effects → modal rt ≠ Some Reconnect →
  let rt' := foldl perform rt effects in
  timers rt' = timers rt ∧ clock rt' = clock rt ∧ modal rt' ≠ Some Reconnect ∧
  connection_attempts rt' = connection_attempts rt.
Proof.
  intros Hq. revert rt. induction Hq as [|e effects He _ IH]; intros rt Hm; [done|].
  simpl. destruct (IH (perform rt e)) as (-> & -> & Hm' & ->).
  - destruct e as [| |m [| |]| | |]; simpl in *; done.
  - rewrite attempts_perform. split_and!; [by destruct e..|done|].
    destruct e; try done; by rewrite app_nil_r.
Qed.

Lemma dispatch_quiet ev rt :
  ev ≠ WsClose → modal rt ≠ Some Reconnect →
  let rt' := dispatch ev rt in
  timers rt' = timers rt ∧ clock rt' = clock rt ∧ modal rt' ≠ Some Reconnect ∧
  connection_attempts rt' = connection_attempts rt ∧
  isConnected (app rt') = isConnected (app rt) || is_open ev.
Proof.
  intros Hev Hm. simpl.
  destruct (handle_quiet ev (modal rt) (app rt) Hev Hm) as [Hq Hc].
  rewrite app_dispatch, Hc. unfold dispatch.
  destruct (handle ev (modal rt) (app rt)) as [st effects]. simpl in Hq.
  set (shown := match ev with ModalConfirm | ModalCancel => None | _ => modal rt end).
  assert (shown ≠ Some Reconnect) as Hshown by (by destruct ev).
  destruct (perform_quiet effects
    (mkRuntime st shown (timers rt) (clock rt) (log rt)) Hq Hshown)
    as (-> & -> & ? & ->).
  done.
Qed.

Lemma advance_idle (u due : Z) rt :
  u < due → timers rt = [(due, Reconnect)] →
  advance u rt
  = mkRuntime (app rt) (modal rt) [(due, Reconnect)] (Z.max (clock rt) u) (log rt).
Proof.
  intros Hu Ht. unfold advance. rewrite Ht. simpl.
  by rewrite (proj2 (Z.leb_gt due u)), (proj2 (Z.ltb_lt u due)).
Qed.

Lemma advance_no_timers (u : Z) rt :
  timers rt = [] →
  advance u rt = mkRuntime (app rt) (modal rt) [] (Z.max (clock rt) u) (log rt).
Proof. intros Ht. unfold advance. by rewrite Ht. Qed.

(** Until the timer is due nothing touches it, and no connection is opened. *)
Lemma waiting_run (due : Z) (interim : list (Z * Event)) rt :
  timers rt = [(due, Reconnect)] → modal rt ≠ Some Reconnect → clock rt < due →
  Forall (λ timed, timed.1 < due ∧ timed.2 ≠ WsClose) interim →
  let rt' := run rt interim in
  timers rt' = [(due, Reconnect)] ∧ modal rt' ≠ Some Reconnect ∧ clock rt' < due ∧
  connection_attempts rt' = connection_attempts rt ∧
  isConnected (app rt')
  = isConnected (app rt) || existsb (λ timed, is_open timed.2) interim.
Proof.
  intros Ht Hm Hc Hall. revert rt Ht Hm Hc.
  induction Hall as [|[u ev] interim [Hu Hev] _ IH]; intros rt Ht Hm Hc; simpl.
  - by rewrite orb_false_r.
  - simpl in Hu, Hev.
    pose proof (advance_idle u due rt Hu Ht) as Hidle.
    destruct (dispatch_quiet ev (advance u rt) Hev) as (Ht' & Hc' & Hm' & Ha & Hi).
    { by rewrite Hidle. }
    change (dispatch ev (advance u rt)) with (deliver rt (u, ev)) in Ht', Hc', Hm', Ha, Hi.
    rewrite Hidle in Ht', Hc', Ha, Hi. simpl in Ht', Hc', Ha, Hi.
    assert (clock (deliver rt (u, ev)) < due) as Hc'' by lia.
    destruct (IH (deliver rt (u, ev)) Ht' Hm' Hc'') as (-> & ? & ? & -> & ->).
    rewrite Hi, Ha. by rewrite orb_assoc.
Qed.

(** Claim C9.  When the transport closes at time [t] (no reconnection
    pending), the client is disconnected and one timer is armed for
    [t + 3000].  Whatever else happens before that time, no connection is
    attempted before it.  When the timer fires, exactly one attempt is made
    at [t + 3000] if the connection was not opened in the meantime, and
    none if it was; the timer is then gone. *)
Theorem reconnect_after_close rt (t t' : Z) (interim : list (Z * Event)) :
  timers rt = [] → modal rt ≠ Some Reconnect → clock rt ≤ t →
  Forall (λ timed, timed.1 < t + 3000 ∧ timed.2 ≠ WsClose) interim →
  t + 3000 ≤ t' →
  let closed := deliver rt (t, WsClose) in
  let waiting := run closed interim in
  let after := advance t' waiting in
  isConnected (app closed) = false ∧
  timers closed = [(t + 3000, Reconnect)] ∧
  connection_attempts waiting = connection_attempts rt ∧
  timers after = [] ∧
  connection_attempts after =
    connection_attempts rt ++
    (if existsb (λ timed, is_open timed.2) interim then [] else [t + 3000]).
Proof.
  intros Ht Hm Hc Hall Hlate. cbv zeta.
  assert (deliver rt (t, WsClose)
          = mkRuntime (with_isConnected false (app rt)) (modal rt)
              [(t + 3000, Reconnect)] t
              (log rt ++ [(t, UpdateConnectionStatus "Disconnected" "disconnected");
                          (t, SetTimeout Reconnect 3000)])) as Hclosed.
  { unfold deliver. rewrite advance_no_timers by done.
    unfold dispatch. simpl. rewrite Z.max_r by done. by rewrite <-app_assoc. }
  rewrite Hclosed.
  destruct (waiting_run (t + 3000) interim
    (mkRuntime (with_isConnected false (app rt)) (modal rt)
       [(t + 3000, Reconnect)] t
       (log rt ++ [(t, UpdateConnectionStatus "Disconnected" "disconnected");
                   (t, SetTimeout Reconnect 3000)])))
    as (Htw & Hmw & Hcw & Haw & Hiw); [done|done|simpl; lia|done|].
  assert (connection_attempts
            (mkRuntime (with_isConnected false (app rt)) (modal rt)
               [(t + 3000, Reconnect)] t
               (log rt ++ [(t, UpdateConnectionStatus "Disconnected" "disconnected");
                           (t, SetTimeout Reconnect 3000)]))
          = connection_attempts rt) as Hlog.
  { unfold connection_attempts. simpl. rewrite omap_app. simpl. apply app_nil_r. }
  rewrite Hlog in Haw. simpl in Hiw.
  set (waiting := run _ interim) in *.
  assert (advance t' waiting
          = if isConnected (app waiting)
            then mkRuntime (app waiting) (modal waiting) []
                   (Z.max (Z.max (clock waiting) (t + 3000)) t') (log waiting)
            else mkRuntime (app waiting) (modal waiting) []
                   (Z.max (Z.max (clock waiting) (t + 3000)) t')
                   (log waiting ++ [(Z.max (clock waiting) (t + 3000), NewWebSocket)]))
    as Hafter.
  { unfold advance. rewrite Htw. simpl.
    rewrite (proj2 (Z.leb_le (t + 3000) t')), (proj2 (Z.ltb_ge t' (t + 3000))) by done.
    simpl. unfold fire. simpl. by destruct (isConnected (app waiting)). }
  rewrite Hafter, Hiw.
  split_and!; [reflexivity|reflexivity|exact Haw| |].
  - by destruct (existsb _ interim).
  - destruct (existsb _ interim); unfold connection_attempts in *; simpl.
    + by rewrite app_nil_r.
    + rewrite omap_app, Haw. simpl. by rewrite Z.max_r by lia.
Qed.
End Reconnection.

(** ** The theorems at concrete inputs *)


Lemma eviction_removes_oldest_witness :
  cache_ok three_inserted ∧ 0 ≤ maxOrders three_inserted ∧
  cache_size (enforceMaxOrdersLimit three_inserted) = 3 - Z.max 0 (3 - 2) ∧
  ordersArray (enforceMaxOrdersLimit three_inserted) = [order_C; order_B].
Proof.
  assert (cache_ok three_inserted) as Hok
    by (apply (bool_decide_unpack _); vm_compute; exact I).
  assert (0 ≤ maxOrders three_inserted) as Hc by (change (0 ≤ 2); lia).
  pose proof (eviction_removes_oldest three_inserted Hok Hc) as (Hsize & Harr & _).
  split_and!; [exact Hok|exact Hc|exact Hsize|exact Harr].
Defined.

Lemma pages_partition_ordering_witness :
  cache_ok with_57_orders ∧ 0 < pageSize with_57_orders ∧
  concat (all_pages with_57_orders) = sorted_values (orders with_57_orders) ∧
  getTotalPages with_57_orders = 3 ∧
  length (page_items with_57_orders 3) = 7%nat.
Proof.
  assert (cache_ok with_57_orders) as Hok
    by (apply (bool_decide_unpack _); vm_compute; exact I).
  assert (0 < pageSize with_57_orders) as Hp by (change (0 < 25); lia).
  pose proof (pages_partition_ordering with_57_orders Hok Hp)
    as (_ & Hcat & _ & _ & _ & Hscenario).
  assert (length (ordersArray with_57_orders) = 57%nat) as Hlen
    by (vm_compute; reflexivity).
  destruct (Hscenario Hlen eq_refl) as [Hpages Hlast].
  split_and!; [exact Hok|exact Hp|exact Hcat|exact Hpages|exact Hlast].
Defined.

Lemma updateMaxOrdersLimit_capacity_witness :
  cache_ok connected_ABC ∧
  maxOrders (updateMaxOrdersLimit "2" connected_ABC) = 2 ∧
  cache_size (updateMaxOrdersLimit "2" connected_ABC) = Z.min (cache_size connected_ABC) 2 ∧
  maxOrders (updateMaxOrdersLimit "none" connected_ABC) = 500.
Proof.
  assert (cache_ok connected_ABC) as Hok
    by (apply (bool_decide_unpack _); vm_compute; exact I).
  pose proof (updateMaxOrdersLimit_capacity "2" connected_ABC Hok) as [Hpos _].
  pose proof (updateMaxOrdersLimit_capacity "none" connected_ABC Hok) as [_ Hdefault].
  destruct (Hpos 2 eq_refl ltac:(lia)) as (Hmax & Hsize & _).
  destruct (Hdefault (or_introl eq_refl)) as (Hmax' & _).
  split_and!; [exact Hok|exact Hmax|exact Hsize|exact Hmax'].
Defined.

Lemma reconnect_after_close_witness :
  timers online = [] ∧ modal online ≠ Some Reconnect ∧ clock online ≤ 1000 ∧
  Forall (λ timed, timed.1 < 1000 + 3000 ∧ timed.2 ≠ WsClose) while_offline ∧
  1000 + 3000 ≤ 5000 ∧
  connection_attempts
    (advance 5000 (run (deliver online (1000, WsClose)) while_offline))
  = [0; 4000].
Proof.
  assert (timers online = []) as Ht by reflexivity.
  assert (modal online ≠ Some Reconnect) as Hm by (intros [=]).
  assert (clock online ≤ 1000) as Hc by (change (0 ≤ 1000); lia).
  assert (Forall (λ timed, timed.1 < 1000 + 3000 ∧ timed.2 ≠ WsClose) while_offline)
    as Hall by (repeat constructor; simpl; (lia || intros [=])).
  assert (1000 + 3000 ≤ 5000) as Hlate by lia.
  pose proof (reconnect_after_close online 1000 5000 while_offline Ht Hm Hc Hall Hlate)
    as (_ & _ & _ & _ & Hattempts).
  split_and!; [exact Ht|exact Hm|exact Hc|exact Hall|exact Hlate|exact Hattempts].
Defined.

(** * Further properties *)

(** ** The cache and its ordering *)

Section CacheMore.
Implicit Types (st : App) (rt : Runtime) (ev : Event) (o : Order).

(** Property X1.  Along every run, whatever the events, the keys of the cache
    stay unique, every order stays stored under its own identifier, and
    [ordersArray] stays the stable newest-first sort of the cached orders. *)
Theorem ordering_kept_along_runs rt (events : list (Z * Event)) :
  cache_ok (app rt) → cache_ok (app (run rt events)).
Proof.
  revert rt. induction events as [|timed events IH]; intros rt Hok; [done|].
  simpl. apply IH. rewrite app_deliver. by apply handle_cache_ok.
Qed.

(** Property X2.  In the ordering of a well-formed cache an order never comes
    before a newer one, and two orders with the same timestamp appear in the
    order in which they were inserted into the cache. *)
Theorem ordering_newest_first_stable st (a b : Order) :
  cache_ok st → comes_before (ordersArray st) a b →
  timestamp b ≤ timestamp a ∧
  (timestamp a = timestamp b → inserted_before st a b).
Proof.
  intros [Hm Harr] (front & back & Hsplit & Ha & Hb).
  pose proof (sort_descending (JS.map_values (orders st))) as Hsorted.
  fold (sorted_values (orders st)) in Hsorted. rewrite <-Harr, Hsplit in Hsorted.
  split.
  - by eapply StronglySorted_app_1_elem_of in Hsorted.
  - intros Htie.
    pose proof (sort_stable (timestamp a) (JS.map_values (orders st))) as Hst.
    fold (sorted_values (orders st)) in Hst. rewrite <-Harr, Hsplit in Hst.
    rewrite filter_app in Hst. symmetry in Hst.
    apply filter_app_inv in Hst as (l1 & l2 & Hvalues & H1 & H2).
    exists l1, l2. split; [done|]. split.
    + assert (a ∈ filter (λ o, timestamp o = timestamp a) l1) as Hin
        by (rewrite H1; by apply list_elem_of_filter).
      by apply list_elem_of_filter in Hin as [_ ?].
    + assert (b ∈ filter (λ o, timestamp o = timestamp a) l2) as Hin
        by (rewrite H2; by apply list_elem_of_filter).
      by apply list_elem_of_filter in Hin as [_ ?].
Qed.

Lemma filter_all_elem {A} (P : A → Prop) `{∀ x, Decision (P x)} (l : list A) :
  (∀ x, x ∈ l → P x) → filter P l = l.
Proof.
  induction l as [|x l IH]; intros HP; [done|].
  rewrite filter_cons_True by (apply HP; by left).
  f_equal. apply IH. intros y Hy. apply HP. by right.
Qed.

Lemma map_get_gone (gone : list string) (k : string) (m : list (string * Order)) :
  k ∈ gone → JS.map_get k (filter (λ kv, kv.1 ∉ gone) m) = None.
Proof.
  intros Hk. apply map_get_None. unfold JS.map_keys.
  intros (kv & -> & [Hkeep _]%list_elem_of_filter)%list_elem_of_fmap. done.
Qed.

(** Property X3.  An order_item and an order_updated frame carrying the same
    order have the same effect.  After the frame an identifier is either no
    longer cached (evicted), or it maps to the frame's order if it is the
    frame's identifier and to the record it had before otherwise. *)
Theorem ingest_then_lookup st o (k : string) :
  let st' := receive st (MsgOrderItem o) in
  receive st (MsgOrderUpdated o) = st' ∧
  (JS.map_get k (orders st') = None ∨
   JS.map_get k (orders st')
   = if decide (order_id o = k) then Some o else JS.map_get k (orders st)).
Proof.
  simpl. split; [done|].
  change (receive st (MsgOrderItem o)) with (enforceMaxOrdersLimit (inserted o st)).
  destruct (enforce_fields (inserted o st)) as (-> & _).
  destruct (decide (k ∈ order_id <$>
    drop (Z.to_nat (maxOrders (inserted o st))) (ordersArray (inserted o st))))
    as [Hgone|Hkept].
  - left. by apply map_get_gone.
  - right. rewrite map_get_kept by done. simpl. apply map_get_set.
Qed.

(** The newest order heads the ordering. *)
Lemma sort_newest_first o (l : list Order) :
  o ∈ l → (∀ x, x ∈ l → x = o ∨ timestamp x < timestamp o) →
  ∃ rest, JS.sort newest_first l = o :: rest.
Proof.
  induction l as [|x l IH]; intros Hin Hmax; [by apply elem_of_nil in Hin|].
  simpl. destruct (decide (x = o)) as [->|Hne].
  - exists (JS.sort newest_first l). apply sort_insert_front.
    apply Forall_forall. intros y Hy. rewrite sort_perm in Hy.
    destruct (Hmax y) as [->|?]; [by right|lia|lia].
  - apply elem_of_cons in Hin as [?|Hin]; [congruence|].
    destruct IH as [rest ->]; [done|by intros y Hy; apply Hmax; right|].
    destruct (Hmax x) as [?|Hlt]; [by left|done|].
    simpl. unfold newest_first at 1.
    rewrite (proj2 (Z.leb_gt _ _)) by lia. by eexists.
Qed.

Lemma elem_of_map_set_other (k : string) o (m : list (string * Order)) kv :
  NoDup (JS.map_keys m) → kv ∈ JS.map_set k o m →
  kv = (k, o) ∨ (kv ∈ m ∧ kv.1 ≠ k).
Proof.
  unfold JS.map_keys. induction m as [|[k0 o0] m IH]; simpl.
  - intros _ ->%list_elem_of_singleton. by left.
  - rewrite NoDup_cons. intros [Hk0 Hnd].
    destruct (decide (k0 = k)) as [->|Hne].
    + intros [->|Hin]%elem_of_cons; [by left|]. right. split; [by right|].
      intros <-. apply Hk0. by apply list_elem_of_fmap_2.
    + intros [->|Hin]%elem_of_cons; [right; split; [by left|done]|].
      destruct (IH Hnd Hin) as [->|[? ?]]; [by left|]. right. split; [by right|done].
Qed.

(** Property X4.  With a capacity of at least 1, a frame whose order is
    strictly newer than every other cached order is always admitted: the
    order is cached with the frame's data and heads the ordering. *)
Theorem newest_order_admitted st o :
  map_ok (orders st) → 1 ≤ maxOrders st →
  Forall (λ kv, kv.1 ≠ order_id o → timestamp kv.2 < timestamp o) (orders st) →
  let st' := receive st (MsgOrderItem o) in
  JS.map_get (order_id o) (orders st') = Some o ∧
  head (ordersArray st') = Some o.
Proof.
  intros Hm Hcap Hnew. simpl.
  change (receive st (MsgOrderItem o)) with (enforceMaxOrdersLimit (inserted o st)).
  pose proof (inserted_ok o st Hm) as Hok.
  pose proof (cache_ok_ids _ Hok) as Hnd.
  destruct (enforce_ordering _ Hok) as [Harr _].
  destruct (enforce_fields (inserted o st)) as (Ho & _).
  assert (∃ rest, ordersArray (inserted o st) = o :: rest) as [rest Hhead].
  { simpl. apply sort_newest_first.
    - unfold JS.map_values. apply list_elem_of_fmap. exists (order_id o, o).
      split; [done|]. clear. induction (orders st) as [|[k0 o0] m IH]; simpl.
      + by left.
      + case_decide; [by left|by right].
    - intros x (kv & -> & Hkv)%list_elem_of_fmap.
      apply elem_of_map_set_other in Hkv as [->|[Hin Hne]]; [by left| |apply Hm].
      right. rewrite Forall_forall in Hnew. by apply Hnew. }
  assert (Z.to_nat (maxOrders (inserted o st)) = S (Z.to_nat (maxOrders st - 1))) as Hc
    by (simpl; lia).
  split.
  - rewrite Ho, map_get_kept; [simpl; by rewrite map_get_set, decide_True|].
    rewrite Hhead, Hc in *. simpl.
    rewrite fmap_cons in Hnd. apply NoDup_cons in Hnd as [Hfresh _].
    intros Hin. apply Hfresh. rewrite fmap_drop in Hin.
    eapply elem_of_sublist; [exact Hin|apply sublist_drop].
  - rewrite Harr, Hhead, Hc. done.
Qed.

(** An order no newer than any other sorts last. *)
Lemma sort_insert_oldest_last x o (l : list Order) :
  timestamp o ≤ timestamp x →
  JS.sort_insert newest_first x (l ++ [o]) = JS.sort_insert newest_first x l ++ [o].
Proof.
  intros Hle. induction l as [|y l IH]; simpl.
  - unfold newest_first. by rewrite (proj2 (Z.leb_le _ _)) by lia.
  - case_match; [done|]. by rewrite IH.
Qed.

Lemma sort_oldest_last o (l : list Order) :
  Forall (λ x, timestamp o ≤ timestamp x) l →
  JS.sort newest_first (l ++ [o]) = JS.sort newest_first l ++ [o].
Proof.
  induction 1 as [|x l Hx _ IH]; [done|].
  simpl. by rewrite IH, sort_insert_oldest_last.
Qed.

Lemma map_set_fresh (k : string) o (m : list (string * Order)) :
  k ∉ JS.map_keys m → JS.map_set k o m = m ++ [(k, o)].
Proof.
  unfold JS.map_keys. induction m as [|[k0 o0] m IH]; [done|].
  rewrite fmap_cons, not_elem_of_cons. simpl. intros [Hne Hk].
  rewrite decide_False by congruence. by rewrite IH.
Qed.

Lemma filter_ext_elem {A} (P Q : A → Prop)
    `{∀ x, Decision (P x)} `{∀ x, Decision (Q x)} (l : list A) :
  (∀ x, x ∈ l → (P x ↔ Q x)) → filter P l = filter Q l.
Proof.
  induction l as [|x l IH]; intros Hext; [done|].
  rewrite !filter_cons.
  destruct (decide (P x)) as [HP|HP], (decide (Q x)) as [HQ|HQ].
  - f_equal. apply IH. intros y Hy. apply Hext. by right.
  - destruct HQ. apply Hext; [by left|done].
  - destruct HP. apply Hext; [by left|done].
  - apply IH. intros y Hy. apply Hext. by right.
Qed.

Lemma app_eq st st' :
  orders st' = orders st → ordersArray st' = ordersArray st →
  selectedOrders st' = selectedOrders st → isConnected st' = isConnected st →
  currentPage st' = currentPage st → pageSize st' = pageSize st →
  maxOrders st' = maxOrders st → st' = st.
Proof. destruct st, st'; simpl; by intros -> -> -> -> -> -> ->. Qed.

Lemma stale_insertion_undone st o :
  cache_ok st → order_id o ∉ selectedOrders st → cache_size st = maxOrders st →
  ¬ cached st (order_id o) →
  Forall (λ kv, timestamp o ≤ timestamp kv.2) (orders st) →
  enforceMaxOrdersLimit (inserted o st) = st.
Proof.
  intros Hok Hsel Hfull Hfresh Hold.
  pose proof (inserted_ok o st (proj1 Hok)) as Hok'.
  destruct (enforce_ordering _ Hok') as [Harr _].
  destruct (enforce_fields (inserted o st)) as (Ho & Hs & Hc & Hp & Hps & Hmax).
  assert (ordersArray (inserted o st) = ordersArray st ++ [o]) as Hins.
  { simpl. rewrite map_set_fresh by done. destruct Hok as [_ ->].
    unfold sorted_values, JS.map_values. rewrite fmap_app. simpl.
    apply sort_oldest_last. by apply Forall_fmap. }
  assert (Z.to_nat (maxOrders (inserted o st)) = length (ordersArray st)) as Hcap.
  { simpl. rewrite <-Hfull, cache_size_ordering by done. lia. }
  rewrite Hins, Hcap in *. rewrite drop_app_length in Ho, Hs.
  apply app_eq; try done.
  - rewrite Ho. simpl. rewrite map_set_fresh, filter_app by done.
    rewrite filter_cons_False, filter_nil, app_nil_r.
    + apply filter_all_elem. intros kv Hkv [Heq|Hin%elem_of_nil]%elem_of_cons; [|done].
      apply Hfresh. unfold cached, JS.map_keys. rewrite <-Heq.
      by apply list_elem_of_fmap_2.
    + simpl. intros Hn. apply Hn. by left.
  - rewrite Harr. by rewrite take_app_length.
  - rewrite Hs. simpl. apply filter_all_elem.
    intros k Hk [Heq|Hin%elem_of_nil]%elem_of_cons; [|done].
    apply Hsel. by rewrite <-Heq.
Qed.

(** Property X5.  On a full cache, a frame for an identifier that is not
    cached, whose order is no newer than any cached order, changes nothing:
    the order is inserted and evicted in the same call. *)
Theorem stale_order_dropped st o :
  cache_ok st → selection_ok st → cache_size st = maxOrders st →
  ¬ cached st (order_id o) →
  Forall (λ kv, timestamp o ≤ timestamp kv.2) (orders st) →
  receive st (MsgOrderItem o) = st.
Proof.
  intros Hok Hsel Hfull Hfresh Hold.
  apply (stale_insertion_undone st o); try done.
  intros Hin. by apply Hfresh, Hsel.
Qed.
Lemma enforce_eq (c : nat) st :
  cache_ok st → Z.to_nat (maxOrders st) = c →
  enforceMaxOrdersLimit st
  = mkApp (filter (λ kv, kv.1 ∉ order_id <$> drop c (ordersArray st)) (orders st))
          (take c (ordersArray st))
          (filter (λ k, k ∉ order_id <$> drop c (ordersArray st)) (selectedOrders st))
          (isConnected st) (currentPage st) (pageSize st) (maxOrders st).
Proof.
  intros Hok <-.
  destruct (enforce_ordering st Hok) as [Harr _].
  destruct (enforce_fields st) as (Ho & Hs & Hc & Hp & Hps & Hmax).
  by apply app_eq.
Qed.

Lemma enforce_again st :
  cache_ok st →
  enforceMaxOrdersLimit (enforceMaxOrdersLimit st) = enforceMaxOrdersLimit st.
Proof.
  intros Hok. destruct (enforce_ordering st Hok) as [Harr Hok'].
  destruct (enforce_fields st) as (_ & _ & _ & _ & _ & Hmax).
  rewrite (enforce_eq (Z.to_nat (maxOrders st)) (enforceMaxOrdersLimit st))
    by (by rewrite ?Hmax).
  rewrite Harr, drop_ge by (rewrite length_take; lia).
  apply app_eq; simpl; try done.
  - apply filter_all. intros kv. apply not_elem_of_nil.
  - by rewrite take_take, Nat.min_id.
  - apply filter_all. intros k. apply not_elem_of_nil.
Qed.

(** Property X6.  [enforceMaxOrdersLimit] is idempotent on a well-formed
    cache, for every capacity. *)
Theorem enforce_idempotent st :
  cache_ok st →
  enforceMaxOrdersLimit (enforceMaxOrdersLimit st) = enforceMaxOrdersLimit st.
Proof. apply enforce_again. Qed.

(** Two capacities in a row keep what the smaller one keeps. *)
Lemma capacities_compose (a b : Z) st :
  cache_ok st → 0 ≤ a → 0 ≤ b →
  let st' := enforceMaxOrdersLimit
               (with_maxOrders b (enforceMaxOrdersLimit (with_maxOrders a st))) in
  maxOrders st' = b ∧
  ordersArray st' = take (Z.to_nat (Z.min a b)) (ordersArray st) ∧
  cache_size st' = Z.min (cache_size st) (Z.min a b).
Proof.
  intros Hok Ha Hb. simpl.
  destruct (set_capacity a st Hok Ha) as (Hmax1 & Hsize1 & Harr1).
  assert (cache_ok (enforceMaxOrdersLimit (with_maxOrders a st))) as Hok1
    by (by apply enforce_ordering).
  destruct (set_capacity b _ Hok1 Hb) as (Hmax2 & Hsize2 & Harr2).
  split_and!; [done| |].
  - rewrite Harr2, Harr1, take_take. f_equal. lia.
  - rewrite Hsize2, Hsize1. lia.
Qed.

(** Property X7.  Two capacities entered one after the other leave the
    second as capacity and keep the newest orders up to the smaller of the
    two: raising the capacity again does not bring evicted orders back. *)
Theorem capacity_changes_compose (first second : string) (a b : Z) st :
  cache_ok st →
  parseInt first = Int a → 0 < a → parseInt second = Int b → 0 < b →
  let st' := updateMaxOrdersLimit second (updateMaxOrdersLimit first st) in
  maxOrders st' = b ∧
  ordersArray st' = take (Z.to_nat (Z.min a b)) (ordersArray st) ∧
  cache_size st' = Z.min (cache_size st) (Z.min a b).
Proof.
  intros Hok Hfirst Ha Hsecond Hb. simpl.
  rewrite !updateMaxOrdersLimit_eq, Hfirst, Hsecond. simpl.
  rewrite (proj2 (Z.eqb_neq a 0)), (proj2 (Z.eqb_neq b 0)) by lia.
  apply capacities_compose; [done|lia..].
Qed.

(** Property X8.  After [enforceMaxOrdersLimit] the selection consists of
    the identifiers selected before that are still cached, in their
    previous order. *)
Theorem eviction_reconciles_selection st :
  selection_ok st →
  selectedOrders (enforceMaxOrdersLimit st)
  = filter (λ k, k ∈ JS.map_keys (orders (enforceMaxOrdersLimit st))) (selectedOrders st).
Proof.
  intros Hsel. destruct (enforce_fields st) as (-> & -> & _).
  apply filter_ext_elem. intros k Hk. apply Hsel in Hk. unfold cached, JS.map_keys in *.
  split.
  - intros Hkeep. apply list_elem_of_fmap in Hk as (kv & -> & Hin).
    apply list_elem_of_fmap_2, list_elem_of_filter. by split.
  - by intros (kv & -> & [? _]%list_elem_of_filter)%list_elem_of_fmap.
Qed.
End CacheMore.

(** ** Selection and pagination *)

Section ViewsMore.
Implicit Types (st : App) (rt : Runtime) (ev : Event) (o : Order).

(** Property X9.  [toggleOrderSelection] flips the membership of its
    identifier and of no other, keeps the selection free of duplicates, and
    leaves the cache and its ordering alone. *)
Theorem toggle_flips_membership (orderId k : string) st :
  let st' := toggleOrderSelection orderId st in
  (k ∈ selectedOrders st' ↔
   if decide (k = orderId) then orderId ∉ selectedOrders st
   else k ∈ selectedOrders st) ∧
  (NoDup (selectedOrders st) → NoDup (selectedOrders st')) ∧
  orders st' = orders st ∧ ordersArray st' = ordersArray st.
Proof.
  simpl. unfold toggleOrderSelection, JS.set_has.
  destruct (decide (orderId ∈ selectedOrders st)) as [Hin|Hout].
  - rewrite bool_decide_eq_true_2 by done. simpl. split_and!; [|apply NoDup_filter|done..].
    unfold JS.set_delete. rewrite list_elem_of_filter.
    case_decide as Hk; [subst|]; tauto.
  - rewrite bool_decide_eq_false_2 by done. simpl. unfold JS.set_add, JS.set_has.
    rewrite bool_decide_eq_false_2 by done. split_and!; [| |done..].
    + rewrite elem_of_app, list_elem_of_singleton.
      case_decide as Hk; [subst; tauto|tauto].
    + intros Hnd. apply NoDup_app. split_and!; [done| |apply NoDup_singleton].
      intros x Hx ->%list_elem_of_singleton. done.
Qed.

(** Property X10.  Every order on the page [renderCurrentPage] displays is
    found in the cache under its identifier, whatever the page number. *)
Theorem displayed_rows_are_cached st o :
  cache_ok st → o ∈ renderCurrentPage st →
  JS.map_get (order_id o) (orders st) = Some o ∧ cached st (order_id o).
Proof. apply rendered_lookup. Qed.

(** Property X11.  With no orders there are 0 pages, [goToPage] ignores
    every request, nothing is displayed, and the four pagination buttons
    are disabled. *)
Theorem empty_cache_navigation st :
  ordersArray st = [] → 0 < pageSize st →
  getTotalPages st = 0 ∧
  (∀ page, goToPage page st = st) ∧
  renderCurrentPage st = [] ∧
  firstPageBtn (updatePaginationControls st) = true ∧
  prevPageBtn (updatePaginationControls st) = true ∧
  nextPageBtn (updatePaginationControls st) = true ∧
  lastPageBtn (updatePaginationControls st) = true.
Proof.
  intros Hempty Hp.
  assert (getTotalPages st = 0) as Htotal.
  { unfold getTotalPages, ceil_div. rewrite Hempty. simpl.
    rewrite Z.div_0_l by lia. done. }
  split_and!; [done| | |simpl; rewrite Htotal; apply orb_true_r..].
  - intros page. unfold goToPage. rewrite Htotal.
    destruct (Z.ltb_spec page 1); [done|].
    by rewrite (proj2 (Z.ltb_lt 0 page)) by lia.
  - unfold renderCurrentPage, JS.slice. rewrite Hempty. by rewrite drop_nil, take_nil.
Qed.

(** Property X12.  When the page number is in range and the cache is not
    empty, the page displayed is not empty: it has [pageSize] rows, or what
    is left of the ordering on the last page. *)
Theorem current_page_size st :
  page_ok st → 0 < pageSize st → ordersArray st ≠ [] →
  let shown := Z.of_nat (length (renderCurrentPage st)) in
  shown = Z.min (pageSize st)
            (Z.of_nat (length (ordersArray st)) - (currentPage st - 1) * pageSize st) ∧
  0 < shown.
Proof.
  intros [Hlow Hhigh] Hp Hne. simpl.
  assert (0 < Z.of_nat (length (ordersArray st))) as Hlen
    by (destruct (ordersArray st); [done|simpl; lia]).
  destruct (ceil_div_bounds (Z.of_nat (length (ordersArray st))) (pageSize st))
    as (Hn & Hle & _ & Hlast); [lia..|].
  fold (getTotalPages st) in Hn, Hle, Hlast. specialize (Hlast Hlen).
  assert (currentPage st ≤ getTotalPages st) as Hpage by nia.
  pose proof (page_items_chunk st (Z.to_nat (currentPage st - 1)) Hp) as Hchunk.
  replace (Z.of_nat (Z.to_nat (currentPage st - 1)) + 1) with (currentPage st) in Hchunk by lia.
  unfold page_items in Hchunk.
  replace (with_currentPage (currentPage st) st) with st in Hchunk by (by destruct st).
  rewrite Hchunk, length_take, length_drop. nia.
Qed.

Lemma currentPage_goToPage (page : Z) st :
  currentPage (goToPage page st)
  = if (page <? 1) || (getTotalPages st <? page) then currentPage st else page.
Proof. unfold goToPage. by case_match. Qed.

(** Property X13.  When the page number is in range, each of the four
    pagination buttons is disabled exactly when clicking it would leave the
    page number as it is. *)
Theorem pagination_buttons_match_navigation st :
  page_ok st → 0 < pageSize st →
  firstPageBtn (updatePaginationControls st) = negb (click_changes ClickFirstPage st) ∧
  prevPageBtn (updatePaginationControls st) = negb (click_changes ClickPrevPage st) ∧
  nextPageBtn (updatePaginationControls st) = negb (click_changes ClickNextPage st) ∧
  lastPageBtn (updatePaginationControls st) = negb (click_changes ClickLastPage st).
Proof.
  intros [Hlow Hhigh] Hp.
  destruct (ceil_div_bounds (Z.of_nat (length (ordersArray st))) (pageSize st))
    as (Hn & _); [lia..|].
  fold (getTotalPages st) in Hn.
  unfold click_changes, updatePaginationControls; simpl.
  rewrite !negb_involutive, !currentPage_goToPage.
  split_and!.
  - destruct (Z.eqb_spec (currentPage st) 1), (Z.eqb_spec (getTotalPages st) 0),
      (Z.ltb_spec 1 1), (Z.ltb_spec (getTotalPages st) 1);
      simpl; case_bool_decide; (done || lia).
  - destruct (Z.eqb_spec (currentPage st) 1), (Z.eqb_spec (getTotalPages st) 0),
      (Z.ltb_spec (currentPage st - 1) 1),
      (Z.ltb_spec (getTotalPages st) (currentPage st - 1));
      simpl; case_bool_decide; (done || lia).
  - destruct (Z.eqb_spec (currentPage st) (getTotalPages st)),
      (Z.eqb_spec (getTotalPages st) 0),
      (Z.ltb_spec (currentPage st + 1) 1),
      (Z.ltb_spec (getTotalPages st) (currentPage st + 1));
      simpl; case_bool_decide; (done || lia).
  - destruct (Z.eqb_spec (currentPage st) (getTotalPages st)),
      (Z.eqb_spec (getTotalPages st) 0),
      (Z.ltb_spec (getTotalPages st) 1),
      (Z.ltb_spec (getTotalPages st) (getTotalPages st));
      simpl; case_bool_decide; (done || lia).
Qed.
Lemma ceil_div_mono (a a' b : Z) : 0 < b → a ≤ a' → ceil_div a b ≤ ceil_div a' b.
Proof.
  intros Hb Ha. unfold ceil_div.
  pose proof (Z.div_le_mono (- a') (- a) b Hb). lia.
Qed.

(** The page stays in range when the ordering does not get shorter. *)
Lemma page_ok_grow st st' :
  page_ok st → currentPage st' = currentPage st → pageSize st' = pageSize st →
  0 < pageSize st → (length (ordersArray st) ≤ length (ordersArray st'))%nat →
  page_ok st'.
Proof.
  unfold page_ok, getTotalPages. intros [Hlow Hhigh] -> -> Hp Hlen.
  pose proof (ceil_div_mono (Z.of_nat (length (ordersArray st)))
                (Z.of_nat (length (ordersArray st'))) (pageSize st) Hp). lia.
Qed.

Lemma handle_keeps_page ev shown st :
  keeps_capacity ev →
  cache_ok st → cache_size st ≤ maxOrders st → 0 < pageSize st → page_ok st →
  let st' := (handle ev shown st).1 in
  cache_ok st' ∧ cache_size st' ≤ maxOrders st' ∧ 0 < pageSize st' ∧ page_ok st'.
Proof.
  intros Hev Hok Hsize Hp Hpage. simpl.
  split; [by apply handle_cache_ok|].
  assert (∀ o, let st' := enforceMaxOrdersLimit (inserted o st) in
            cache_size st' ≤ maxOrders st' ∧ 0 < pageSize st' ∧ page_ok st') as Hingest.
  { intros o. simpl.
    pose proof (inserted_ok o st (proj1 Hok)) as Hok'.
    destruct (enforce_fields (inserted o st)) as (_ & _ & _ & Hcp & Hps & Hmax).
    assert (0 ≤ maxOrders (inserted o st)) as Hcap
      by (simpl; unfold cache_size, JS.map_size in Hsize; lia).
    pose proof (enforce_size _ Hok' Hcap) as Hnew.
    assert (cache_size st ≤ cache_size (inserted o st)) as Hgrow.
    { unfold cache_size, JS.map_size. simpl. rewrite length_map_set. case_decide; lia. }
    rewrite Hmax, Hps.
    change (maxOrders (inserted o st)) with (maxOrders st) in *.
    change (pageSize (inserted o st)) with (pageSize st) in *.
    split_and!; [lia|done|].
    apply (page_ok_grow st); [done..|].
    destruct (enforce_ordering _ Hok') as [_ Hok''].
    pose proof (cache_size_ordering _ Hok'') as Hlen'.
    pose proof (cache_size_ordering _ Hok) as Hlen. simpl in *. lia. }
  destruct ev as [|[order| | |order|]| | | | | | | | | | | | | | | |];
    simpl in Hev |- *;
    try done; try (by apply Hingest);
    try (match goal with
         | |- context [goToPage ?p st] =>
             pose proof (goToPage_page_ok p st Hpage) as Hgo;
             unfold goToPage in Hgo |- *; by case_match
         end).
  - unfold deselectAllOrders. by case_match.
  - unfold toggleOrderSelection. by case_match.
  - split_and!; [done..|]. apply onPageSizeChange_page_ok.
  - destruct shown as [[orderId|ids|]|]; simpl; try done.
    by destruct (isConnected st).
Qed.

(** Property X14.  Along a run that starts within capacity and has no
    capacity change (page sizes being positive), the page number stays in
    range and the cache stays within capacity. *)
Theorem page_kept_without_capacity_change rt (events : list (Z * Event)) :
  cache_ok (app rt) → cache_size (app rt) ≤ maxOrders (app rt) →
  0 < pageSize (app rt) → page_ok (app rt) →
  Forall (λ timed, keeps_capacity timed.2) events →
  page_ok (app (run rt events)) ∧
  cache_size (app (run rt events)) ≤ maxOrders (app (run rt events)).
Proof.
  intros Hok Hsize Hp Hpage Hall. revert rt Hok Hsize Hp Hpage.
  induction Hall as [|timed events Hev _ IH]; intros rt Hok Hsize Hp Hpage; [done|].
  simpl.
  destruct (handle_keeps_page timed.2 (modal (advance timed.1 rt)) (app rt))
    as (? & ? & ? & ?); [done..|].
  apply IH; by rewrite app_deliver.
Qed.

(** Property X15.  On a connected client the Close Selected button is
    disabled exactly when confirming [closeSelectedOrders] would send
    nothing, and otherwise its label carries the number of [close_order]
    commands that will be sent. *)
Theorem close_button_counts_commands st (later : App) :
  isConnected st = true → isConnected later = true →
  let button := updateCloseSelectedButton st in
  let commands := sent (and_confirmed (closeSelectedOrders st) later) in
  disabled button = bool_decide (commands = []) ∧
  textContent button
  = if disabled button then "Close Selected"
    else "Close Selected (" +:+ show (Z.of_nat (length commands)) +:+ ")".
Proof.
  intros Hc Hlater. simpl. rewrite sent_closeSelectedOrders by done.
  rewrite length_fmap.
  destruct (List.filter (is_processing st) (selectedOrders st)) as [|k ids]; [done|].
  simpl length. rewrite (proj2 (Z.eqb_neq _ 0)), (proj2 (Z.ltb_lt 0 _)) by lia.
  done.
Qed.

Lemma elem_of_list_filter_bool {A} (f : A → bool) (l : list A) (x : A) :
  x ∈ List.filter f l ↔ f x = true ∧ x ∈ l.
Proof. rewrite !list_elem_of_In, filter_In. tauto. Qed.

(** Property X16.  On a connected client [processSelectedOrders] sends one
    [process_order] per selected identifier, in selection order.  The
    Process Selected button is enabled exactly when some selected order is
    pending, and then at least one command is sent. *)
Theorem process_button_and_commands st :
  isConnected st = true →
  let button := updateProcessSelectedButton st in
  let commands := sent (processSelectedOrders st) in
  commands = process_order <$> selectedOrders st ∧
  (disabled button = false ↔ ∃ orderId, orderId ∈ selectedOrders st ∧ is_pending st orderId = true) ∧
  (disabled button = false → commands ≠ []).
Proof.
  intros Hc. simpl. rewrite sent_processSelectedOrders by done.
  assert (((Z.of_nat (length (List.filter (is_pending st) (selectedOrders st))) =? 0) = false)
          ↔ ∃ orderId, orderId ∈ selectedOrders st ∧ is_pending st orderId = true) as Hiff.
  { destruct (List.filter (is_pending st) (selectedOrders st)) as [|k ids] eqn:Hf.
    - split; [done|]. intros (k & Hk & Hp).
      assert (k ∈ List.filter (is_pending st) (selectedOrders st)) as Hin
        by (by apply elem_of_list_filter_bool).
      rewrite Hf in Hin. by apply elem_of_nil in Hin.
    - split; [|intros _; apply Z.eqb_neq; simpl; lia]. intros _. exists k.
      assert (k ∈ List.filter (is_pending st) (selectedOrders st)) as Hin
        by (rewrite Hf; by left).
      apply elem_of_list_filter_bool in Hin. tauto. }
  split_and!; [done|exact Hiff|].
  intros (k & Hk & _)%Hiff. destruct (selectedOrders st); [by apply elem_of_nil in Hk|done].
Qed.

Lemma foldl_count_order (m : list (string * Order)) (p q : Z) :
  foldl count_order (p, q) m
  = (p + Z.of_nat (length (filter (λ o, status o = "Pending") (JS.map_values m))),
     q + Z.of_nat (length (filter (λ o, status o = "Processing") (JS.map_values m)))).
Proof.
  unfold JS.map_values. revert p q. induction m as [|[k o] m IH]; intros p q.
  - simpl. f_equal; lia.
  - rewrite fmap_cons. simpl foldl. unfold count_order at 2. cbn [fst snd].
    rewrite IH, !filter_cons.
    destruct (decide (status o = "Pending")) as [Hp|Hp],
             (decide (status o = "Processing")) as [Hq|Hq];
      repeat case_bool_decide; try done;
      rewrite ?length_cons; f_equal; lia.
Qed.

(** Property X17.  [updateStatistics] shows the number of cached orders
    with status Pending, the number with status Processing, and the size of
    the cache; the two counters together never exceed the total, which is
    the length of the ordering. *)
Theorem statistics_count_by_status st :
  let stats := updateStatistics st in
  pendingCount stats
  = Z.of_nat (length (filter (λ o, status o = "Pending") (JS.map_values (orders st)))) ∧
  processingCount stats
  = Z.of_nat (length (filter (λ o, status o = "Processing") (JS.map_values (orders st)))) ∧
  pendingCount stats + processingCount stats ≤ totalOrders stats ∧
  (cache_ok st → totalOrders stats = Z.of_nat (length (ordersArray st))).
Proof.
  simpl. unfold updateStatistics. rewrite foldl_count_order. simpl.
  split_and!; [done..| |].
  - unfold JS.map_size, JS.map_values.
    induction (orders st) as [|[k o] m IH]; [done|].
    rewrite !fmap_cons, !filter_cons, length_cons. cbn [snd].
    destruct (decide (status o = "Pending")) as [Hp|Hp],
             (decide (status o = "Processing")) as [Hq|Hq];
      rewrite ?length_cons; try lia.
    rewrite Hp in Hq. discriminate.
  - intros Hok. by rewrite <-cache_size_ordering.
Qed.

Lemma plain_literal_closed (text after : string) :
  plain text = true → plain_literal (text +:+ String "'" after) = Some (text, after).
Proof.
  induction text as [|c text IH]; [done|].
  simpl. intros [Hc Htext]%andb_prop.
  destruct (Ascii.eqb_spec c "'") as [->|_]; [done|].
  by rewrite Hc, IH.
Qed.

Lemma inline_call_processOrder (orderId : string) :
  plain orderId = true →
  inline_call ("app.processOrder('" +:+ orderId +:+ "')") = Some (CallProcessOrder orderId).
Proof.
  intros Hplain. unfold inline_call.
  change (strip_prefix "app.processOrder('" ("app.processOrder('" +:+ orderId +:+ "')"))
    with (Some (orderId +:+ String "'" ")")).
  cbv beta iota. by rewrite plain_literal_closed.
Qed.

Lemma inline_call_closeOrder (orderId : string) :
  plain orderId = true →
  inline_call ("app.closeOrder('" +:+ orderId +:+ "')") = Some (CallCloseOrder orderId).
Proof.
  intros Hplain. unfold inline_call.
  change (strip_prefix "app.processOrder('" ("app.closeOrder('" +:+ orderId +:+ "')"))
    with (@None string).
  change (strip_prefix "app.closeOrder('" ("app.closeOrder('" +:+ orderId +:+ "')"))
    with (Some (orderId +:+ String "'" ")")).
  cbv beta iota. by rewrite plain_literal_closed.
Qed.

(** A quote in the identifier ends the literal early: the handler is not a
    call the model reads. *)
Example inline_call_quote :
  actionButton (createOrderRow (an_order "a'b" "Pending" 1000) constructor)
  = ProcessButton "app.processOrder('a'b')" ∧
  inline_call "app.processOrder('a'b')" = None.
Proof. split; reflexivity. Qed.

(** Property X18.  On a connected client, for every displayed order whose
    text fields are plain text (no control character, quote, ampersand, <
    or backslash, so that the markup of the row and the string literal in
    the inline handler carry them unchanged): its row toggles a cached
    identifier; a Process button appears only on a pending order, its
    handler calls [processOrder] with the identifier of the order, and its
    click sends [process_order]; a Close button appears only on an order
    in Processing, its handler calls [closeOrder] with the identifier, and
    its click opens the confirmation dialog, never an error; other orders
    get no button. *)
Theorem row_actions_accepted st o :
  cache_ok st → isConnected st = true → o ∈ renderCurrentPage st → plain_fields o →
  let row := createOrderRow o st in
  cached st (data_order_id row) ∧
  match actionButton row with
  | ProcessButton onclick =>
      status o = "Pending" ∧
      inline_call onclick = Some (CallProcessOrder (order_id o)) ∧
      click_action (actionButton row) st = Some [Send (process_order (order_id o))]
  | CloseButton onclick =>
      status o = "Processing" ∧
      inline_call onclick = Some (CallCloseOrder (order_id o)) ∧
      ∃ message,
        click_action (actionButton row) st
        = Some [ShowConfirmationModal message (PerformCloseOrder (order_id o))]
  | NoButton => status o ≠ "Pending" ∧ status o ≠ "Processing"
  end.
Proof.
  intros Hok Hc Hin (Hplain & _).
  destruct (rendered_lookup st o Hok Hin) as [Hget Hcached].
  cbn zeta. split; [done|]. unfold createOrderRow. cbn [actionButton].
  destruct (decide (status o = "Pending")) as [Hp|Hp].
  - rewrite bool_decide_eq_true_2 by done. split; [done|].
    unfold click_action. rewrite inline_call_processOrder by done.
    split; [done|]. unfold processOrder. by rewrite Hc.
  - rewrite bool_decide_eq_false_2 by done.
    destruct (decide (status o = "Processing")) as [Hq|Hq].
    + rewrite bool_decide_eq_true_2 by done. split; [done|].
      unfold click_action. rewrite inline_call_closeOrder by done.
      split; [done|].
      destruct (closeOrder_processing (order_id o) st o) as [message ->]; [done..|].
      by exists message.
    + by rewrite bool_decide_eq_false_2.
Qed.
End ViewsMore.

(** ** Commands, connection and the capacity text *)

Section CommandsMore.
Implicit Types (st : App) (rt : Runtime) (ev : Event) (o : Order).

Lemma sent_bind_nil (f : string → list Effect) (ids : list string) :
  (∀ orderId, sent (f orderId) = []) → sent (ids ≫= f) = [].
Proof.
  intros Hf. induction ids as [|orderId ids IH]; [done|].
  by rewrite bind_cons, sent_app, Hf, IH.
Qed.

(** Property X19.  While the client is disconnected no event makes it send a
    command, not even the confirmation of a dialog opened earlier; the four
    command buttons report that the client is not connected. *)
Theorem nothing_sent_while_disconnected ev (shown : option Callback) st :
  isConnected st = false →
  sent (handle ev shown st).2 = [] ∧
  match ev with
  | ClickProcess _ | ClickClose _ | ClickProcessSelected | ClickCloseSelected =>
      (handle ev shown st).2 = [ShowStatus "Not connected to server" "error"]
  | _ => True
  end.
Proof.
  intros Hc.
  assert (∀ orderId, sent (performCloseOrder orderId st) = []) as Hperform
    by (intros; unfold performCloseOrder; by rewrite Hc).
  destruct ev as [|[order| | |order|]| | | | | | | | | | | | | | | |]; simpl;
    try done;
    try (unfold processOrder, closeOrder, processSelectedOrders, closeSelectedOrders;
         by rewrite Hc).
  - split; [|done]. unfold deselectAllOrders. by case_match.
  - split; [|done]. destruct shown as [[orderId|ids|]|]; simpl; try done.
    + unfold performCloseSelectedOrders. rewrite sent_app, sent_bind_nil; done.
    + by rewrite Hc.
Qed.

(** Property X20.  Events other than order frames and capacity changes,
    that is every operator action, status frame, dialog and connection
    event, leave the cached orders, their ordering and the capacity
    untouched: the client never changes an order itself. *)
Theorem operator_actions_leave_orders rt (events : list (Z * Event)) :
  Forall (λ timed, leaves_cache timed.2) events →
  orders (app (run rt events)) = orders (app rt) ∧
  ordersArray (app (run rt events)) = ordersArray (app rt) ∧
  maxOrders (app (run rt events)) = maxOrders (app rt).
Proof.
  intros Hall. revert rt. induction Hall as [|timed events Hev _ IH]; intros rt; [done|].
  simpl. destruct (IH (deliver rt timed)) as (-> & -> & ->).
  rewrite app_deliver.
  destruct (handle_cache_cases timed.2 (modal (advance timed.1 rt)) (app rt))
    as [(_ & Ho & Ha & Hm)|[(o & [Heq|Heq] & _)|(value & Heq & _)]];
    [done|rewrite Heq in Hev; done..].
Qed.
End CommandsMore.

Section Retry.
Implicit Types (rt : Runtime).

(** A close at [t], and time passing beyond the timer it armed. *)
Lemma close_then_due rt (t u : Z) :
  timers rt = [] → clock rt ≤ t → t + 3000 ≤ u →
  advance u (deliver rt (t, WsClose))
  = mkRuntime (with_isConnected false (app rt)) (modal rt) [] u
      (log rt ++ [(t, UpdateConnectionStatus "Disconnected" "disconnected");
                  (t, SetTimeout Reconnect 3000);
                  (t + 3000, NewWebSocket)]).
Proof.
  intros Ht Hc Hu. unfold deliver. cbn [fst snd].
  rewrite (advance_no_timers t rt) by done.
  unfold dispatch. simpl. rewrite (Z.max_r (clock rt) t) by lia.
  unfold advance. simpl.
  rewrite (proj2 (Z.leb_le (t + 3000) u)), (proj2 (Z.ltb_ge u (t + 3000))) by done.
  simpl. unfold fire. simpl.
  rewrite (Z.max_r t (t + 3000)), (Z.max_r (t + 3000) u) by lia.
  by rewrite <-!app_assoc.
Qed.

Lemma advance_again rt (u : Z) :
  timers rt = [] → clock rt = u → advance u rt = rt.
Proof.
  intros Ht Hc. rewrite advance_no_timers by done.
  rewrite Hc, Z.max_id, <-Hc, <-Ht. by destruct rt.
Qed.

Lemma run_cons rt (timed : Z * Event) (events : list (Z * Event)) :
  run rt (timed :: events) = run (deliver rt timed) events.
Proof. reflexivity. Qed.

(** Property X21.  When the transport fails again and again, each close
    coming after the attempt that followed the previous one, every close is
    answered by exactly one connection attempt 3000 later, without limit
    and without growing delay. *)
Theorem reconnect_retries rt (t final : Z) (later : list Z) :
  timers rt = [] → clock rt ≤ t → spaced t (later ++ [final]) →
  let closes := t :: later in
  let rt' := advance final (run rt ((λ u, (u, WsClose)) <$> closes)) in
  connection_attempts rt' = connection_attempts rt ++ ((λ u, u + 3000) <$> closes) ∧
  isConnected (app rt') = false ∧ timers rt' = [].
Proof.
  cbv zeta. revert rt t.
  induction later as [|u later IH]; intros rt t Ht Hc Hspaced;
    rewrite !(fmap_cons _ t), run_cons.
  - destruct Hspaced as [Hfinal _].
    change (run (deliver rt (t, WsClose)) ((λ u, (u, WsClose)) <$> []))
      with (deliver rt (t, WsClose)).
    rewrite (close_then_due rt t final Ht Hc Hfinal).
    unfold connection_attempts. simpl. rewrite omap_app. simpl. done.
  - destruct Hspaced as [Hu Hspaced].
    pose proof (close_then_due rt t u Ht Hc Hu) as Hdue.
    set (rt1 := mkRuntime (with_isConnected false (app rt)) (modal rt) [] u
      (log rt ++ [(t, UpdateConnectionStatus "Disconnected" "disconnected");
                  (t, SetTimeout Reconnect 3000);
                  (t + 3000, NewWebSocket)])) in *.
    assert (deliver (deliver rt (t, WsClose)) (u, WsClose) = deliver rt1 (u, WsClose)) as Hsame.
    { unfold deliver at 1 3. cbn [fst snd]. rewrite Hdue.
      by rewrite (advance_again rt1 u). }
    rewrite !(fmap_cons _ u), run_cons, Hsame.
    destruct (IH rt1 u) as (Hattempts & Hconn & Htimers); [done|simpl; lia|done|].
    rewrite !(fmap_cons _ u), run_cons in Hattempts, Hconn, Htimers.
    rewrite Hattempts, Hconn, Htimers. split_and!; [|done..].
    unfold connection_attempts at 1. simpl. rewrite omap_app. simpl.
    by rewrite <-app_assoc.
Qed.
End Retry.

Section LegacyClient.
Implicit Types (st : App).

Lemma legacy_receive_grows st (message : Message) :
  (length (orders st) ≤ length (orders (Legacy.receive st message)))%nat ∧
  maxOrders (Legacy.receive st message) = maxOrders st.
Proof.
  destruct message as [o| | |o|]; simpl; try done;
    rewrite length_map_set; case_decide; split; (done || lia).
Qed.

Lemma legacy_run_grows st (messages : list Message) :
  (length (orders st) ≤ length (orders (foldl Legacy.receive st messages)))%nat ∧
  maxOrders (foldl Legacy.receive st messages) = maxOrders st.
Proof.
  revert st. induction messages as [|message messages IH]; intros st; [done|].
  simpl. destruct (IH (Legacy.receive st message)) as [Hlen ->].
  destruct (legacy_receive_grows st message) as [Hlen' ->]. split; [lia|done].
Qed.

(** Property X22.  As long as the frames received fit into the capacity,
    the client of [app_fresh.js] ends in the same state as the client of
    [app.js], which never evicts. *)
Theorem fresh_agrees_with_legacy st (messages : list Message) :
  Z.of_nat (length (orders (foldl Legacy.receive st messages))) ≤ maxOrders st →
  foldl receive st messages = foldl Legacy.receive st messages.
Proof.
  revert st. induction messages as [|message messages IH]; intros st Hsize; [done|].
  simpl in *.
  destruct (legacy_run_grows (Legacy.receive st message) messages) as [Hgrow Hmax].
  destruct (legacy_receive_grows st message) as [_ Hmax'].
  assert (receive st message = Legacy.receive st message) as ->.
  { destruct message as [o| | |o|]; try done;
      unfold receive, Legacy.receive; simpl;
      unfold addOrderToTable, updateOrderInTable, enforceMaxOrdersLimit; simpl;
      unfold sorted_values, JS.map_values; rewrite length_sort, length_fmap;
      simpl in Hgrow;
      by rewrite (proj2 (Z.ltb_ge _ _)) by lia. }
  apply IH. by rewrite Hmax'.
Qed.
End LegacyClient.

(** ** Decimal numerals in the capacity box *)

Section Numerals.

Lemma digit_value_pretty (d : N) :
  (d < 10)%N → digit_value (pretty_N_char d) = Some (Z.of_N d).
Proof.
  intros Hd.
  assert (d = 0 ∨ d = 1 ∨ d = 2 ∨ d = 3 ∨ d = 4 ∨ d = 5 ∨ d = 6 ∨ d = 7 ∨ d = 8 ∨ d = 9)%N
    as Hcases by lia.
  repeat (destruct Hcases as [->|Hcases]; [reflexivity|]). by subst.
Qed.

Lemma parse_digits_step (c : ascii) (d : N) (rest : string) (acc : option Z) :
  (d < 10)%N → c = pretty_N_char d →
  parse_digits 10 (String c rest) acc
  = parse_digits 10 rest (Some (default 0 acc * 10 + Z.of_N d)).
Proof.
  intros Hd ->. simpl. rewrite digit_value_pretty by done.
  by rewrite (proj2 (Z.ltb_lt (Z.of_N d) 10)) by lia.
Qed.

(** Reading back the digits [pretty_N_go] writes. *)
Lemma parse_pretty_go (x : N) (rest : string) (acc : option Z) :
  (0 < x)%N → default 0 acc = 0 →
  parse_digits 10 (pretty_N_go x rest) acc = parse_digits 10 rest (Some (Z.of_N x)).
Proof.
  revert rest acc. induction (N.lt_wf_0 x) as [x _ IH]; intros rest acc Hx Hacc.
  rewrite pretty_N_go_step by done.
  pose proof (N.mod_lt x 10) as Hmod. pose proof (N.div_mod x 10) as Hdiv.
  destruct (decide (x `div` 10 = 0)%N) as [Hz|Hnz].
  - rewrite Hz, pretty_N_go_0.
    rewrite (parse_digits_step _ (x `mod` 10)) by (done || lia).
    rewrite Hacc. do 2 f_equal. lia.
  - rewrite IH; [|apply N.div_lt; lia|lia|done].
    rewrite (parse_digits_step _ (x `mod` 10)) by (done || lia).
    simpl. do 2 f_equal. lia.
Qed.

(** The first digit written is not a zero. *)
Lemma pretty_go_head (x : N) (rest : string) :
  (0 < x)%N →
  ∃ d tail, (0 < d < 10)%N ∧ pretty_N_go x rest = String (pretty_N_char d) tail.
Proof.
  revert rest. induction (N.lt_wf_0 x) as [x _ IH]; intros rest Hx.
  rewrite pretty_N_go_step by done.
  pose proof (N.mod_lt x 10) as Hmod. pose proof (N.div_mod x 10) as Hdiv.
  destruct (decide (x `div` 10 = 0)%N) as [Hz|Hnz].
  - rewrite Hz, pretty_N_go_0. exists (x `mod` 10)%N, rest. split; [lia|done].
  - apply IH; [apply N.div_lt; lia|lia].
Qed.

Lemma parseInt_leading_digit (d : N) (tail : string) :
  (0 < d < 10)%N →
  parseInt (String (pretty_N_char d) tail)
  = match parse_digits 10 (String (pretty_N_char d) tail) None with
    | Some n => to_number 1 n
    | None => NaN
    end ∧
  parseInt (String "-" (String (pretty_N_char d) tail))
  = match parse_digits 10 (String (pretty_N_char d) tail) None with
    | Some n => to_number (-1) n
    | None => NaN
    end.
Proof.
  intros Hd.
  assert (d = 1 ∨ d = 2 ∨ d = 3 ∨ d = 4 ∨ d = 5 ∨ d = 6 ∨ d = 7 ∨ d = 8 ∨ d = 9)%N
    as Hcases by lia.
  repeat (destruct Hcases as [->|Hcases]; [split; reflexivity|]).
  subst. split; reflexivity.
Qed.

(** [parseInt] of a decimal numeral is the rounded value of the numeral. *)
Lemma parseInt_pretty_positive (p : positive) :
  parseInt (pretty (N.pos p)) = to_number 1 (Z.pos p) ∧
  parseInt ("-" +:+ pretty (N.pos p)) = to_number (-1) (Z.pos p).
Proof.
  unfold pretty, pretty_N. rewrite decide_False by done.
  destruct (pretty_go_head (N.pos p) EmptyString) as (d & tail & Hd & Hhead); [lia|].
  pose proof (parse_pretty_go (N.pos p) EmptyString None) as Hparse.
  rewrite Hhead in *.
  change ("-" +:+ String (pretty_N_char d) tail)
    with (String "-" (String (pretty_N_char d) tail)).
  destruct (parseInt_leading_digit d tail Hd) as [-> ->].
  rewrite Hparse by (done || lia). done.
Qed.

(** Up to 2^53 every natural number is a double. *)
Lemma round_to_double_exact (n : Z) :
  0 ≤ n ≤ 2 ^ 53 → round_to_double n = n.
Proof.
  intros Hn. destruct (decide (n = 2 ^ 53)) as [->|Hne]; [reflexivity|].
  unfold round_to_double.
  assert (Z.log2 n < 53) as Hlog.
  { destruct (decide (n = 0)) as [->|Hpos]; [done|].
    apply Z.log2_lt_pow2; lia. }
  by rewrite (proj2 (Z.leb_le (Z.log2 n - 52) 0)) by lia.
Qed.

Lemma to_number_exact (sign n : Z) :
  0 ≤ n ≤ 2 ^ 53 → to_number sign n = Int (sign * n).
Proof.
  intros Hn. unfold to_number. rewrite round_to_double_exact by done.
  assert (Z.log2 n ≤ Z.log2 (2 ^ 53)) as Hlog by (apply Z.log2_le_mono; lia).
  change (Z.log2 (2 ^ 53)) with 53 in Hlog.
  by rewrite (proj2 (Z.leb_gt 1024 (Z.log2 n))) by lia.
Qed.

(** Beyond 2^53 [parseInt] gives the nearest double, ties to even, and from
    2^1024 - 2^970 on an infinity, which leaves the cache as it is. *)
Example parseInt_rounds :
  parseInt "9007199254740993" = Int 9007199254740992 ∧
  parseInt "9007199254740995" = Int 9007199254740996 ∧
  parseInt "-9007199254740993" = Int (-9007199254740992) ∧
  parseInt (show (2 ^ 1024 - 2 ^ 970 - 1)) = Int (2 ^ 1024 - 2 ^ 971) ∧
  parseInt (show (2 ^ 1024 - 2 ^ 970)) = Infinity false ∧
  orders (updateMaxOrdersLimit (show (2 ^ 1024 - 2 ^ 970)) connected_ABC)
  = orders connected_ABC.
Proof. split_and!; vm_compute; reflexivity. Qed.

(** Property X23.  [parseInt] reads back the decimal numeral of every
    integer of magnitude up to 2^53, where every integer is a double: so
    entering the numeral of a positive integer up to 2^53 as capacity sets
    exactly that capacity, and entering 0 sets 500. *)
Theorem capacity_from_numeral (n : Z) (st : App) :
  - 2 ^ 53 ≤ n ≤ 2 ^ 53 →
  parseInt (show n) = Int n ∧
  (0 < n → maxOrders (updateMaxOrdersLimit (show n) st) = n) ∧
  (n = 0 → maxOrders (updateMaxOrdersLimit (show n) st) = 500).
Proof.
  intros Hn.
  assert (parseInt (show n) = Int n) as Hparse.
  { unfold show, pretty, pretty_Z. destruct n as [|p|p]; [done|..].
    - etrans; [apply (parseInt_pretty_positive p)|].
      rewrite to_number_exact by lia. f_equal.
    - etrans; [apply (parseInt_pretty_positive p)|].
      rewrite to_number_exact by lia. f_equal. }
  split; [done|].
  destruct (enforce_fields (with_maxOrders (or_else (parseInt (show n)) 500) st))
    as (_ & _ & _ & _ & _ & Hmax).
  rewrite updateMaxOrdersLimit_eq, Hmax, Hparse. simpl. split.
  - intros Hpos. by rewrite (proj2 (Z.eqb_neq n 0)) by lia.
  - by intros ->.
Qed.
End Numerals.

(** ** Frames delivered twice *)

Section Duplicates.
Implicit Types (st : App) (o : Order).

Lemma map_set_same (k : string) o (m : list (string * Order)) :
  JS.map_get k m = Some o → JS.map_set k o m = m.
Proof.
  induction m as [|[k0 o0] m IH]; simpl; [done|].
  case_decide; [by intros [= ->]; subst|]. intros Hget. by rewrite IH.
Qed.

Lemma inserted_cached o st :
  cached (inserted o st) (order_id o) ∧ o ∈ JS.map_values (orders (inserted o st)).
Proof.
  unfold cached, JS.map_keys, JS.map_values. simpl.
  assert ((order_id o, o) ∈ JS.map_set (order_id o) o (orders st)) as Hin.
  { induction (orders st) as [|[k0 o0] m IH]; simpl; [by left|].
    case_decide; [by left|by right]. }
  split; [by apply (list_elem_of_fmap_2 fst) in Hin|by apply (list_elem_of_fmap_2 snd) in Hin].
Qed.

(** Property X24.  For a non-negative capacity, a frame delivered twice in
    a row leaves the client as after the first delivery. *)
Theorem duplicate_frame_harmless st o :
  cache_ok st → 0 ≤ maxOrders st →
  let st' := receive st (MsgOrderItem o) in
  receive st' (MsgOrderItem o) = st'.
Proof.
  intros Hok Hcap. simpl.
  change (receive st (MsgOrderItem o)) with (enforceMaxOrdersLimit (inserted o st)).
  set (ins := inserted o st).
  change (receive (enforceMaxOrdersLimit ins) (MsgOrderItem o))
    with (enforceMaxOrdersLimit (inserted o (enforceMaxOrdersLimit ins))).
  assert (cache_ok ins) as Hins by apply inserted_ok, Hok.
  destruct (enforce_ordering ins Hins) as [Harr Hok1].
  destruct (enforce_fields ins) as (Ho & _ & _ & _ & _ & Hmax).
  destruct (inserted_cached o st) as [Hcached Hvalue]. fold ins in Hcached, Hvalue.
  destruct (decide (order_id o ∈ JS.map_keys (orders (enforceMaxOrdersLimit ins))))
    as [Hin|Hout]; fold (cached (enforceMaxOrdersLimit ins) (order_id o)) in *.
  - assert (JS.map_get (order_id o) (orders (enforceMaxOrdersLimit ins)) = Some o) as Hget.
    { rewrite Ho. unfold cached in Hin. rewrite Ho in Hin. unfold JS.map_keys in Hin.
      apply list_elem_of_fmap in Hin as (kv & Hk & [Hkeep _]%list_elem_of_filter).
      rewrite map_get_kept by (by rewrite Hk).
      unfold ins. simpl. by rewrite map_get_set, decide_True. }
    assert (inserted o (enforceMaxOrdersLimit ins) = enforceMaxOrdersLimit ins) as ->.
    { apply app_eq; simpl; try done.
      - by apply map_set_same.
      - rewrite map_set_same by done. symmetry. apply Hok1. }
    by apply enforce_again.
  - destruct (enforce_removes ins (order_id o) Hcached Hout) as [Hguard _].
    apply stale_insertion_undone; try done.
    + by apply enforce_deselects.
    + rewrite enforce_size, Hmax, cache_size_ordering by done.
      unfold ins in *. simpl in *. lia.
    + assert (o ∈ drop (Z.to_nat (maxOrders ins)) (ordersArray ins)) as Htail
        by (by apply evicted_in_tail).
      pose proof (sort_descending (JS.map_values (orders ins))) as Hsorted.
      fold (sorted_values (orders ins)) in Hsorted.
      destruct Hins as [_ Hsame]. rewrite <-Hsame in Hsorted.
      rewrite <-(take_drop (Z.to_nat (maxOrders ins)) (ordersArray ins)) in Hsorted.
      apply Forall_forall. intros kv Hkv.
      assert (kv.2 ∈ take (Z.to_nat (maxOrders ins)) (ordersArray ins)) as Hhead.
      { rewrite <-Harr. destruct Hok1 as [_ ->]. unfold sorted_values.
        rewrite sort_perm. unfold JS.map_values. by apply list_elem_of_fmap_2. }
      by eapply StronglySorted_app_1_elem_of in Hsorted.
Qed.
End Duplicates.

(** ** Clearing the selection *)

Section Deselect.
Implicit Types (st : App).

(** Property X25.  After [deselectAllOrders] nothing is selected; the
    Process Selected, Close Selected and Deselect All buttons are disabled;
    the cache is untouched; and on a connected client both bulk handlers
    only report that no orders are selected. *)
Theorem deselect_all_disarms st :
  let st' := (deselectAllOrders st).1 in
  selectedOrders st' = [] ∧ orders st' = orders st ∧
  disabled (updateProcessSelectedButton st') = true ∧
  disabled (updateCloseSelectedButton st') = true ∧
  disabled (updateDeselectAllButton st') = true ∧
  (isConnected st = true →
   processSelectedOrders st' = [ShowStatus "No orders selected" "error"] ∧
   closeSelectedOrders st' = [ShowStatus "No orders selected" "error"]).
Proof.
  simpl.
  assert (selectedOrders (deselectAllOrders st).1 = [] ∧
          orders (deselectAllOrders st).1 = orders st ∧
          isConnected (deselectAllOrders st).1 = isConnected st) as (Hs & Ho & Hc).
  { unfold deselectAllOrders, JS.set_size.
    destruct (Z.eqb_spec (Z.of_nat (length (selectedOrders st))) 0) as [Hz|Hz]; [|done].
    simpl. split; [|done]. destruct (selectedOrders st); [done|simpl in Hz; lia]. }
  split_and!; [done..| | | |].
  - unfold updateProcessSelectedButton. by rewrite Hs.
  - unfold updateCloseSelectedButton. by rewrite Hs.
  - unfold updateDeselectAllButton. by rewrite Hs.
  - intros Hconn. unfold processSelectedOrders, closeSelectedOrders.
    by rewrite Hc, Hconn, Hs.
Qed.
End Deselect.

(** ** The further properties at concrete inputs *)

Ltac by_computation := apply (bool_decide_unpack _); vm_compute; exact I.

Lemma selection_ok_Forall (st : App) :
  Forall (λ k, k ∈ JS.map_keys (orders st)) (selectedOrders st) → selection_ok st.
Proof. intros Hall k Hk. rewrite Forall_forall in Hall. by apply Hall. Qed.

Lemma selection_within_cache_witness :
  permitted_run boot selecting_session ∧
  selection_ok (app (run boot selecting_session)).
Proof.
  assert (permitted_run boot selecting_session) as Hrun.
  { repeat split. cbv [permitted snd]. unfold displayed. by_computation. }
  split; [exact Hrun|].
  exact (proj1 (selection_within_cache selecting_session Hrun 5)).
Defined.

Lemma ordering_kept_along_runs_witness :
  cache_ok (app boot) ∧ cache_ok (app (run boot selecting_session)).
Proof.
  assert (cache_ok (app boot)) as Hok by by_computation.
  split; [exact Hok|exact (ordering_kept_along_runs boot selecting_session Hok)].
Defined.

Lemma ordering_newest_first_stable_witness :
  cache_ok connected_ABC ∧ comes_before (ordersArray connected_ABC) order_C order_A ∧
  timestamp order_A ≤ timestamp order_C.
Proof.
  assert (cache_ok connected_ABC) as Hok by by_computation.
  assert (comes_before (ordersArray connected_ABC) order_C order_A) as Hbefore.
  { exists [order_C], [order_B; order_A]. split; [reflexivity|].
    split; [apply list_elem_of_here|apply list_elem_of_further, list_elem_of_here]. }
  split_and!; [exact Hok|exact Hbefore|].
  exact (proj1 (ordering_newest_first_stable connected_ABC order_C order_A Hok Hbefore)).
Defined.

Lemma newest_order_admitted_witness :
  map_ok (orders connected_ABC) ∧ 1 ≤ maxOrders connected_ABC ∧
  Forall (λ kv, kv.1 ≠ order_id order_D → timestamp kv.2 < timestamp order_D)
    (orders connected_ABC) ∧
  JS.map_get "D" (orders (receive connected_ABC (MsgOrderItem order_D))) = Some order_D ∧
  head (ordersArray (receive connected_ABC (MsgOrderItem order_D))) = Some order_D.
Proof.
  assert (map_ok (orders connected_ABC)) as Hm by by_computation.
  assert (1 ≤ maxOrders connected_ABC) as Hcap by by_computation.
  assert (Forall (λ kv, kv.1 ≠ order_id order_D → timestamp kv.2 < timestamp order_D)
            (orders connected_ABC)) as Hnew
    by (repeat constructor; intros _; vm_compute; reflexivity).
  pose proof (newest_order_admitted connected_ABC order_D Hm Hcap Hnew) as [Hget Hhead].
  split_and!; [exact Hm|exact Hcap|exact Hnew|exact Hget|exact Hhead].
Defined.

Lemma stale_order_dropped_witness :
  cache_ok full_BC ∧ selection_ok full_BC ∧ cache_size full_BC = maxOrders full_BC ∧
  ¬ cached full_BC (order_id order_A) ∧
  Forall (λ kv, timestamp order_A ≤ timestamp kv.2) (orders full_BC) ∧
  receive full_BC (MsgOrderItem order_A) = full_BC.
Proof.
  assert (cache_ok full_BC) as Hok by by_computation.
  assert (selection_ok full_BC) as Hsel by (apply selection_ok_Forall; by_computation).
  assert (cache_size full_BC = maxOrders full_BC) as Hfull by (vm_compute; reflexivity).
  assert (¬ cached full_BC (order_id order_A)) as Hfresh by (unfold cached; by_computation).
  assert (Forall (λ kv, timestamp order_A ≤ timestamp kv.2) (orders full_BC)) as Hold
    by by_computation.
  split_and!; [exact Hok|exact Hsel|exact Hfull|exact Hfresh|exact Hold|].
  exact (stale_order_dropped full_BC order_A Hok Hsel Hfull Hfresh Hold).
Defined.

Lemma enforce_idempotent_witness :
  cache_ok three_inserted ∧
  enforceMaxOrdersLimit (enforceMaxOrdersLimit three_inserted)
  = enforceMaxOrdersLimit three_inserted.
Proof.
  assert (cache_ok three_inserted) as Hok by by_computation.
  split; [exact Hok|exact (enforce_idempotent three_inserted Hok)].
Defined.

Lemma capacity_changes_compose_witness :
  cache_ok connected_ABC ∧
  parseInt "1" = Int 1 ∧ 0 < 1 ∧ parseInt "2" = Int 2 ∧ 0 < 2 ∧
  maxOrders (updateMaxOrdersLimit "2" (updateMaxOrdersLimit "1" connected_ABC)) = 2 ∧
  ordersArray (updateMaxOrdersLimit "2" (updateMaxOrdersLimit "1" connected_ABC))
  = take 1 (ordersArray connected_ABC).
Proof.
  assert (cache_ok connected_ABC) as Hok by by_computation.
  assert (0 < 1) as H1 by lia. assert (0 < 2) as H2 by lia.
  pose proof (capacity_changes_compose "1" "2" 1 2 connected_ABC Hok eq_refl H1 eq_refl H2)
    as (Hmax & Harr & _).
  split_and!; [exact Hok|reflexivity|exact H1|reflexivity|exact H2|exact Hmax|exact Harr].
Defined.

Lemma eviction_reconciles_selection_witness :
  selection_ok crowded_selection ∧
  selectedOrders (enforceMaxOrdersLimit crowded_selection)
  = filter (λ k, k ∈ JS.map_keys (orders (enforceMaxOrdersLimit crowded_selection)))
      (selectedOrders crowded_selection).
Proof.
  assert (selection_ok crowded_selection) as Hsel
    by (apply selection_ok_Forall; by_computation).
  split; [exact Hsel|exact (eviction_reconciles_selection crowded_selection Hsel)].
Defined.

Lemma displayed_rows_are_cached_witness :
  cache_ok connected_ABC ∧ order_B ∈ renderCurrentPage connected_ABC ∧
  JS.map_get "B" (orders connected_ABC) = Some order_B.
Proof.
  assert (cache_ok connected_ABC) as Hok by by_computation.
  assert (order_B ∈ renderCurrentPage connected_ABC) as Hin by by_computation.
  split_and!; [exact Hok|exact Hin|].
  exact (proj1 (displayed_rows_are_cached connected_ABC order_B Hok Hin)).
Defined.

Lemma empty_cache_navigation_witness :
  ordersArray constructor = [] ∧ 0 < pageSize constructor ∧
  getTotalPages constructor = 0 ∧ goToPage 2 constructor = constructor.
Proof.
  assert (0 < pageSize constructor) as Hp by by_computation.
  pose proof (empty_cache_navigation constructor eq_refl Hp) as (Htotal & Hgo & _).
  split_and!; [reflexivity|exact Hp|exact Htotal|exact (Hgo 2)].
Defined.

Lemma current_page_size_witness :
  page_ok on_last_page ∧ 0 < pageSize on_last_page ∧ ordersArray on_last_page ≠ [] ∧
  Z.of_nat (length (renderCurrentPage on_last_page)) = 7.
Proof.
  assert (page_ok on_last_page) as Hpage by (unfold page_ok; by_computation).
  assert (0 < pageSize on_last_page) as Hp by by_computation.
  assert (ordersArray on_last_page ≠ []) as Hne by by_computation.
  pose proof (current_page_size on_last_page Hpage Hp Hne) as [Hshown _].
  split_and!; [exact Hpage|exact Hp|exact Hne|].
  rewrite Hshown. vm_compute. reflexivity.
Defined.

Lemma pagination_buttons_match_navigation_witness :
  page_ok on_last_page ∧ 0 < pageSize on_last_page ∧
  nextPageBtn (updatePaginationControls on_last_page)
  = negb (click_changes ClickNextPage on_last_page) ∧
  prevPageBtn (updatePaginationControls on_last_page)
  = negb (click_changes ClickPrevPage on_last_page).
Proof.
  assert (page_ok on_last_page) as Hpage by (unfold page_ok; by_computation).
  assert (0 < pageSize on_last_page) as Hp by by_computation.
  pose proof (pagination_buttons_match_navigation on_last_page Hpage Hp)
    as (_ & Hprev & Hnext & _).
  split_and!; [exact Hpage|exact Hp|exact Hnext|exact Hprev].
Defined.

Lemma page_kept_without_capacity_change_witness :
  cache_ok (app boot) ∧ cache_size (app boot) ≤ maxOrders (app boot) ∧
  0 < pageSize (app boot) ∧ page_ok (app boot) ∧
  Forall (λ timed, keeps_capacity timed.2) browsing_session ∧
  page_ok (app (run boot browsing_session)).
Proof.
  assert (cache_ok (app boot)) as Hok by by_computation.
  assert (cache_size (app boot) ≤ maxOrders (app boot)) as Hsize by by_computation.
  assert (0 < pageSize (app boot)) as Hp by by_computation.
  assert (page_ok (app boot)) as Hpage by (unfold page_ok; by_computation).
  assert (Forall (λ timed, keeps_capacity timed.2) browsing_session) as Hall
    by (repeat constructor).
  split_and!; [exact Hok|exact Hsize|exact Hp|exact Hpage|exact Hall|].
  exact (proj1 (page_kept_without_capacity_change boot browsing_session
                  Hok Hsize Hp Hpage Hall)).
Defined.

Lemma close_button_counts_commands_witness :
  isConnected selected_ABC = true ∧
  disabled (updateCloseSelectedButton selected_ABC)
  = bool_decide (sent (and_confirmed (closeSelectedOrders selected_ABC) selected_ABC) = []).
Proof.
  split; [reflexivity|].
  exact (proj1 (close_button_counts_commands selected_ABC selected_ABC eq_refl eq_refl)).
Defined.

Lemma process_button_and_commands_witness :
  isConnected selected_ABC = true ∧
  sent (processSelectedOrders selected_ABC) = process_order <$> selectedOrders selected_ABC.
Proof.
  split; [reflexivity|].
  exact (proj1 (process_button_and_commands selected_ABC eq_refl)).
Defined.

Lemma row_actions_accepted_witness :
  cache_ok connected_ABC ∧ isConnected connected_ABC = true ∧
  order_B ∈ renderCurrentPage connected_ABC ∧ plain_fields order_B ∧
  cached connected_ABC (data_order_id (createOrderRow order_B connected_ABC)) ∧
  inline_call "app.closeOrder('B')" = Some (CallCloseOrder "B").
Proof.
  assert (cache_ok connected_ABC) as Hok by by_computation.
  assert (order_B ∈ renderCurrentPage connected_ABC) as Hin by by_computation.
  assert (plain_fields order_B) as Hplain by (repeat split).
  pose proof (row_actions_accepted connected_ABC order_B Hok eq_refl Hin Hplain)
    as (Hcached & _ & Hcall & _).
  split_and!; [exact Hok|reflexivity|exact Hin|exact Hplain|exact Hcached|exact Hcall].
Defined.

Lemma nothing_sent_while_disconnected_witness :
  isConnected offline_selected = false ∧
  sent (handle ClickProcessSelected None offline_selected).2 = [].
Proof.
  split; [reflexivity|].
  exact (proj1 (nothing_sent_while_disconnected ClickProcessSelected None
                  offline_selected eq_refl)).
Defined.

Lemma operator_actions_leave_orders_witness :
  Forall (λ timed, leaves_cache timed.2) clicking_session ∧
  orders (app (run serving_ABC clicking_session)) = orders (app serving_ABC).
Proof.
  assert (Forall (λ timed, leaves_cache timed.2) clicking_session) as Hall
    by (repeat constructor).
  split; [exact Hall|].
  exact (proj1 (operator_actions_leave_orders serving_ABC clicking_session Hall)).
Defined.

Lemma reconnect_retries_witness :
  timers online = [] ∧ clock online ≤ 1000 ∧ spaced 1000 ([5000; 9000] ++ [13000]) ∧
  connection_attempts
    (advance 13000 (run online ((λ u, (u, WsClose)) <$> [1000; 5000; 9000])))
  = [0; 4000; 8000; 12000].
Proof.
  assert (clock online ≤ 1000) as Hc by by_computation.
  assert (spaced 1000 ([5000; 9000] ++ [13000])) as Hspaced
    by (simpl; repeat split; lia).
  pose proof (reconnect_retries online 1000 13000 [5000; 9000] eq_refl Hc Hspaced)
    as (Hattempts & _).
  split_and!; [reflexivity|exact Hc|exact Hspaced|exact Hattempts].
Defined.

Lemma fresh_agrees_with_legacy_witness :
  Z.of_nat (length (orders (foldl Legacy.receive constructor (MsgOrderItem <$> numbered 57))))
  ≤ maxOrders constructor ∧
  foldl receive constructor (MsgOrderItem <$> numbered 57)
  = foldl Legacy.receive constructor (MsgOrderItem <$> numbered 57).
Proof.
  assert (Z.of_nat (length (orders (foldl Legacy.receive constructor
                                      (MsgOrderItem <$> numbered 57))))
          ≤ maxOrders constructor) as Hsize by by_computation.
  split; [exact Hsize|].
  exact (fresh_agrees_with_legacy constructor (MsgOrderItem <$> numbered 57) Hsize).
Defined.

Lemma capacity_from_numeral_witness :
  - 2 ^ 53 ≤ 2 ^ 53 ≤ 2 ^ 53 ∧
  parseInt (show (2 ^ 53)) = Int (2 ^ 53) ∧
  maxOrders (updateMaxOrdersLimit (show (2 ^ 53)) connected_ABC) = 2 ^ 53.
Proof.
  assert (- 2 ^ 53 ≤ 2 ^ 53 ≤ 2 ^ 53) as Hn by lia.
  pose proof (capacity_from_numeral (2 ^ 53) connected_ABC Hn) as (Hparse & Hmax & _).
  assert (0 < 2 ^ 53) as Hpos by lia.
  exact (conj Hn (conj Hparse (Hmax Hpos))).
Defined.

Lemma duplicate_frame_harmless_witness :
  cache_ok full_BC ∧ 0 ≤ maxOrders full_BC ∧
  receive (receive full_BC (MsgOrderItem order_D)) (MsgOrderItem order_D)
  = receive full_BC (MsgOrderItem order_D).
Proof.
  assert (cache_ok full_BC) as Hok by by_computation.
  assert (0 ≤ maxOrders full_BC) as Hcap by by_computation.
  split_and!; [exact Hok|exact Hcap|].
  exact (duplicate_frame_harmless full_BC order_D Hok Hcap).
Defined.
